(** * Manifest discovery and ranking: a shallow embedding

    This development models the two services of the extension that decide
    which [package.json] is relevant to a workspace path:

    - [PackageJsonDiscoveryService] (src/src/packageJsonDiscovery.ts), the
      bidirectional search, the scoring function and the result cache;
    - [SmartDetectionService] (the second module of
      src/src/projectDetector.ts), the filter, the project-type
      classification and the auto-selection decision.  The advisory
      recommendation strings and the [ProjectDetector] class of the same
      file take no part in these and are not modelled.

    Modelling conventions.

    - Paths are absolute, normalised POSIX paths, kept as the list of their
      segments below the root; [join] and [dirname] are node's [path.join]
      and [path.dirname] on such paths.  [path_str] renders a path for the
      places where the source compares paths as strings ([startsWith]).
    - JavaScript objects are mutable and shared by reference.  The
      [PackageJsonInfo] objects and the arrays that hold them live in an
      explicit store ([infos], [arrays]); an array is a list of object
      locations.  The cache maps a key to an array location, so a cache hit
      hands out the very array that an earlier call returned.
    - JS numbers are integers here ([Z]): depths, distances and scores are
      only ever built from integer constants by [+], [-] and [*].
    - [async]/[await] is sequential composition: the services run on a
      single thread and every call is awaited by its caller.
    - The text of a file is abstracted to what [JSON.parse] makes of it. *)

From stdpp Require Import gmap strings list fin_maps.
From Stdlib Require Import ZArith QArith Lia.

Set Warnings "-register-all".

Local Open Scope string_scope.
Local Open Scope list_scope.
Local Open Scope Z_scope.

(** ** JSON values *)

Inductive json :=
| JNull
| JBool (b : bool)
| JNum (n : Z)
| JStr (s : string)
| JArr (items : list json)
| JObj (fields : list (string * json)).

(** JavaScript truthiness of a parsed value. *)
Definition truthy (j : json) : bool :=
  match j with
  | JNull => false
  | JBool b => b
  | JNum n => negb (n =? 0)
  | JStr s => negb (String.eqb s "")
  | JArr _ => true
  | JObj _ => true
  end.

(** Truthiness of a possibly [undefined] value. *)
Definition truthy_opt (v : option json) : bool :=
  match v with
  | Some j => truthy j
  | None => false
  end.

(** Own property of a parsed object; in [JSON.parse] a later duplicate of a
    key replaces an earlier one. *)
Fixpoint assoc_last (k : string) (fields : list (string * json)) : option json :=
  match fields with
  | [] => None
  | (k', v) :: rest =>
      match assoc_last k rest with
      | Some w => Some w
      | None => if String.eqb k k' then Some v else None
      end
  end.

(** [v[k]] for a value [v] that is neither [null] nor [undefined]: only
    objects have the properties read by the services. *)
Definition prop (j : json) (k : string) : option json :=
  match j with
  | JObj fields => assoc_last k fields
  | _ => None
  end.

(** [Object.keys(v).length]. *)
Definition keys_length (j : json) : nat :=
  match j with
  | JObj fields => length (remove_dups (fields.*1))
  | JArr items => length items
  | JStr s => String.length s
  | _ => 0%nat
  end.

(** ** Exceptions *)

Inductive error := ENOENT | EACCES | EISDIR | ENOTDIR | SyntaxError | TypeError.

Inductive res (A : Type) :=
| Ok (a : A)
| Throw (e : error).
Arguments Ok {A} a.
Arguments Throw {A} e.

#[export] Instance res_ret : MRet res := fun A a => Ok a.
#[export] Instance res_bind : MBind res := fun A B f m =>
  match m with
  | Ok a => f a
  | Throw e => Throw e
  end.

(** [v || d] for a possibly [undefined] value [v]. *)
Definition js_or (v : option json) (d : json) : json :=
  match v with
  | Some j => if truthy j then j else d
  | None => d
  end.

(** [try { body } catch { handler }]. *)
Definition try_catch {A} (body : res A) (handler : error -> A) : A :=
  match body with
  | Ok a => a
  | Throw e => handler e
  end.

(** Property read [v.k] on an arbitrary parsed value: reading a property of
    [null] throws. *)
Definition member (j : json) (k : string) : res (option json) :=
  match j with
  | JNull => Throw TypeError
  | _ => Ok (prop j k)
  end.

(** ** Paths *)

Abbreviation fspath := (list string).

Definition join (p : fspath) (name : string) : fspath := p ++ [name].

(** [path.dirname]; the root is its own parent. *)
Definition dirname (p : fspath) : fspath := removelast p.

Definition path_str (p : fspath) : string :=
  match p with
  | [] => "/"
  | _ => String.concat "" (map (String.append "/") p)
  end.

Definition startsWith (s t : string) : bool := String.prefix t s.

(** ** The file system *)

(** A file's text is [None] when [JSON.parse] rejects it. *)
Abbreviation text := (option json).

Inductive content :=
| Unreadable
| Text (t : text).

Inductive node :=
| File (c : content)
| Dir (listable : bool) (entries : list (string * node)).

Fixpoint assoc_first {A} (k : string) (l : list (string * A)) : option A :=
  match l with
  | [] => None
  | (k', v) :: rest => if String.eqb k k' then Some v else assoc_first k rest
  end.

Fixpoint lookup_node (n : node) (p : fspath) : option node :=
  match p with
  | [] => Some n
  | seg :: rest =>
      match n with
      | Dir _ entries =>
          match assoc_first seg entries with
          | Some child => lookup_node child rest
          | None => None
          end
      | File _ => None
      end
  end.

Record Dirent := { d_name : string; d_isDirectory : bool }.

Definition is_dir (n : node) : bool :=
  match n with
  | Dir _ _ => true
  | File _ => false
  end.

Module fs.
(** [fs.promises.access(p, F_OK)] *)
Definition access (root : node) (p : fspath) : res unit :=
  match lookup_node root p with
  | Some _ => Ok tt
  | None => Throw ENOENT
  end.

(** [fs.promises.readFile(p, 'utf-8')] *)
Definition readFile (root : node) (p : fspath) : res text :=
  match lookup_node root p with
  | Some (File (Text t)) => Ok t
  | Some (File Unreadable) => Throw EACCES
  | Some (Dir _ _) => Throw EISDIR
  | None => Throw ENOENT
  end.

(** [fs.promises.readdir(p, { withFileTypes: true })] *)
Definition readdir (root : node) (p : fspath) : res (list Dirent) :=
  match lookup_node root p with
  | Some (Dir true entries) =>
      Ok (map (fun e => {| d_name := e.1; d_isDirectory := is_dir e.2 |}) entries)
  | Some (Dir false _) => Throw EACCES
  | Some (File _) => Throw ENOTDIR
  | None => Throw ENOENT
  end.
End fs.

Definition JSON_parse (t : text) : res json :=
  match t with
  | Some j => Ok j
  | None => Throw SyntaxError
  end.

(** ** The store and the service state *)

Abbreviation loc := nat.   (* location of a PackageJsonInfo object *)
Abbreviation aloc := nat.  (* location of an array of such objects *)

Record PackageJsonInfo := {
  path : fspath;
  directory : fspath;
  name : option json;
  version : option json;
  scripts : json;
  isWorkspaceRoot : bool;
  isMonorepoRoot : bool;
  workspaces : option json;
  distance : Z;
  score : Z
}.

Definition with_score (v : Z) (i : PackageJsonInfo) : PackageJsonInfo :=
  {| path := path i; directory := directory i; name := name i;
     version := version i; scripts := scripts i;
     isWorkspaceRoot := isWorkspaceRoot i; isMonorepoRoot := isMonorepoRoot i;
     workspaces := workspaces i; distance := distance i; score := v |}.

Record DiscoveryOptions := {
  o_maxDepthUp : option Z;
  o_maxDepthDown : option Z;
  o_includeNodeModules : option bool;
  o_workspaceRootsOnly : option bool;
  o_cacheResults : option bool
}.

(** [Required<DiscoveryOptions>] *)
Record ResolvedOptions := {
  maxDepthUp : Z;
  maxDepthDown : Z;
  includeNodeModules : bool;
  workspaceRootsOnly : bool;
  cacheResults : bool
}.

Definition no_options : DiscoveryOptions :=
  {| o_maxDepthUp := None; o_maxDepthDown := None; o_includeNodeModules := None;
     o_workspaceRootsOnly := None; o_cacheResults := None |}.

Definition DEFAULT_OPTIONS : ResolvedOptions :=
  {| maxDepthUp := 10; maxDepthDown := 5; includeNodeModules := false;
     workspaceRootsOnly := false; cacheResults := true |}.

(** [{ ...DEFAULT_OPTIONS, ...options }] *)
Definition resolve (options : DiscoveryOptions) : ResolvedOptions :=
  {| maxDepthUp := default (maxDepthUp DEFAULT_OPTIONS) (o_maxDepthUp options);
     maxDepthDown := default (maxDepthDown DEFAULT_OPTIONS) (o_maxDepthDown options);
     includeNodeModules :=
       default (includeNodeModules DEFAULT_OPTIONS) (o_includeNodeModules options);
     workspaceRootsOnly :=
       default (workspaceRootsOnly DEFAULT_OPTIONS) (o_workspaceRootsOnly options);
     cacheResults := default (cacheResults DEFAULT_OPTIONS) (o_cacheResults options) |}.

(** A resolved record passed again as [options]: every field is set. *)
Definition as_options (opts : ResolvedOptions) : DiscoveryOptions :=
  {| o_maxDepthUp := Some (maxDepthUp opts); o_maxDepthDown := Some (maxDepthDown opts);
     o_includeNodeModules := Some (includeNodeModules opts);
     o_workspaceRootsOnly := Some (workspaceRootsOnly opts);
     o_cacheResults := Some (cacheResults opts) |}.

#[export] Instance ResolvedOptions_eq_dec : EqDecision ResolvedOptions.
Proof. solve_decision. Defined.

#[export] Instance ResolvedOptions_countable : Countable ResolvedOptions :=
  inj_countable'
    (fun o => (maxDepthUp o, maxDepthDown o, includeNodeModules o,
               workspaceRootsOnly o, cacheResults o))
    (fun t => match t with
              | (up, down, nm, wr, cr) =>
                  {| maxDepthUp := up; maxDepthDown := down; includeNodeModules := nm;
                     workspaceRootsOnly := wr; cacheResults := cr |}
              end)
    (fun o => match o with Build_ResolvedOptions _ _ _ _ _ => eq_refl end).

(** The cache key [`${startPath}:${JSON.stringify(opts)}`] determines, and is
    determined by, the start path and the five resolved option values. *)
Abbreviation CacheKey := (fspath * ResolvedOptions)%type.

Definition cacheKey (startPath : fspath) (opts : ResolvedOptions) : CacheKey :=
  (startPath, opts).

Record State := {
  infos : list PackageJsonInfo;      (* the PackageJsonInfo objects *)
  arrays : list (list loc);          (* the arrays of object references *)
  cache : gmap CacheKey aloc;        (* this.cache *)
  workspaceRoots : list fspath       (* this.workspaceRoots *)
}.

Definition set_infos (f : list PackageJsonInfo -> list PackageJsonInfo) (s : State) : State :=
  {| infos := f (infos s); arrays := arrays s; cache := cache s;
     workspaceRoots := workspaceRoots s |}.

Definition set_arrays (f : list (list loc) -> list (list loc)) (s : State) : State :=
  {| infos := infos s; arrays := f (arrays s); cache := cache s;
     workspaceRoots := workspaceRoots s |}.

Definition set_cache (f : gmap CacheKey aloc -> gmap CacheKey aloc) (s : State) : State :=
  {| infos := infos s; arrays := arrays s; cache := f (cache s);
     workspaceRoots := workspaceRoots s |}.

Definition set_workspaceRoots (roots : list fspath) (s : State) : State :=
  {| infos := infos s; arrays := arrays s; cache := cache s; workspaceRoots := roots |}.

(** The elements of an array, and the objects they refer to. *)
Definition elements_of (s : State) (a : aloc) : list loc := default [] (arrays s !! a).
Definition info_at (s : State) (l : loc) : option PackageJsonInfo := infos s !! l.
Definition read_array (s : State) (a : aloc) : list PackageJsonInfo :=
  omap (info_at s) (elements_of s a).

(** *** The state monad of the services *)

Definition M (A : Type) : Type := State -> A * State.

#[export] Instance M_ret : MRet M := fun A a s => (a, s).
#[export] Instance M_bind : MBind M := fun A B f m s => let '(a, s') := m s in f a s'.

Definition get_state : M State := fun s => (s, s).

(** [for (const x of xs) { acc = body(x, acc) }] *)
Fixpoint for_of {A B} (xs : list A) (body : A -> B -> M B) (acc : B) : M B :=
  match xs with
  | [] => mret acc
  | x :: rest => acc' ← body x acc; for_of rest body acc'
  end.

(** [new Object] and [new Array] *)
Definition alloc_info (i : PackageJsonInfo) : M loc :=
  fun s => (length (infos s), set_infos (fun h => h ++ [i]) s).
Definition alloc_array (elems : list loc) : M aloc :=
  fun s => (length (arrays s), set_arrays (fun h => h ++ [elems]) s).

(** [arr.push(...ls)] *)
Definition push (a : aloc) (ls : list loc) : M unit :=
  fun s => (tt, set_arrays (alter (fun elems => elems ++ ls) a) s).

(** [this.cache.set(key, a)] *)
Definition cache_set (key : CacheKey) (a : aloc) : M unit :=
  fun s => (tt, set_cache (insert key a) s).

(** [info.score = v] *)
Definition write_score (l : loc) (v : Z) : M unit :=
  fun s => (tt, set_infos (alter (with_score v) l) s).

(** Stable sort by descending score: [arr.sort((a, b) => b.score - a.score)]. *)
Fixpoint insert_desc {A} (key : A -> Z) (x : A) (l : list A) : list A :=
  match l with
  | [] => [x]
  | y :: rest => if key y <=? key x then x :: y :: rest else y :: insert_desc key x rest
  end.

Definition sort_desc {A} (key : A -> Z) (l : list A) : list A :=
  foldr (insert_desc key) [] l.

Definition score_in (h : list PackageJsonInfo) (l : loc) : Z :=
  match h !! l with
  | Some i => score i
  | None => 0
  end.

Definition score_at (s : State) (l : loc) : Z := score_in (infos s) l.

Definition sort_by_score (a : aloc) : M unit :=
  fun s => (tt, set_arrays (alter (sort_desc (score_at s)) a) s).

(** ** PackageJsonDiscoveryService *)

Definition package_json : string := "package.json".

Definition skipDirs : list string :=
  [".git"; ".svn"; ".hg"; ".vscode"; ".idea"; "dist"; "build"; "out";
   ".next"; ".nuxt"; "coverage"; ".nyc_output"; "tmp"; "temp";
   "__pycache__"; ".pytest_cache"].

Definition shouldSkipDirectory (dirName : string) : bool :=
  startsWith dirName "." && negb (startsWith dirName "..")
  || bool_decide (dirName ∈ skipDirs).

Definition commonScripts : list string := ["start"; "dev"; "build"; "test"; "lint"].

(** The score that [calculateScores] assigns to one entry. *)
Definition score_of (hasPackageJsonAtStartPath : bool) (startPath : fspath)
    (info : PackageJsonInfo) : Z :=
  let score := 0 in
  let score := score + Z.max 0 (100 - distance info * 10) in
  let score := if isWorkspaceRoot info then score + 50 else score in
  let score := if isMonorepoRoot info then score + 30 else score in
  let score :=
    if truthy (scripts info) && (0 <? keys_length (scripts info))%nat
    then score + 20 else score in
  let score :=
    if truthy (scripts info) then
      let hasCommonScripts :=
        existsb (fun script => truthy_opt (prop (scripts info) script)) commonScripts in
      if hasCommonScripts then score + 15 else score
    else score in
  let score :=
    if bool_decide (directory info = startPath) then score + 25 else score in
  let score :=
    if negb hasPackageJsonAtStartPath && (distance info =? 1) then score + 40 else score in
  score.

Section Discovery.
(** The file system as it is during the call. *)
Context (root : node).

Definition fileExists (filePath : fspath) : bool :=
  try_catch (_ ← fs.access root filePath; mret true) (fun _ => false).

(** The [try] block of [parsePackageJson], up to the object literal. *)
Definition parsePackageJson_try (roots : list fspath) (packageJsonPath : fspath)
    (distance : Z) : res PackageJsonInfo :=
  content ← fs.readFile root packageJsonPath;
  packageJson ← JSON_parse content;
  let directory := dirname packageJsonPath in
  let isWorkspaceRoot := bool_decide (directory ∈ roots) in
  ws ← member packageJson "workspaces";
  let isMonorepoRoot := truthy_opt ws in
  nm ← member packageJson "name";
  ver ← member packageJson "version";
  scr ← member packageJson "scripts";
  mret {| path := packageJsonPath;
          directory := directory;
          name := nm;
          version := ver;
          scripts := js_or scr (JObj []);
          isWorkspaceRoot := isWorkspaceRoot;
          isMonorepoRoot := isMonorepoRoot;
          workspaces := ws;
          distance := distance;
          score := 0 |}.

Definition parsePackageJson (packageJsonPath : fspath) (distance : Z) : M (option loc) :=
  s ← get_state;
  try_catch
    (info ← parsePackageJson_try (workspaceRoots s) packageJsonPath distance;
     mret (l ← alloc_info info; mret (Some l)))
    (fun _ => mret None).

(** The manifest check shared by both passes. *)
Definition check_manifest (currentPath : fspath) (results : aloc) (depth : Z) : M unit :=
  let packageJsonPath := join currentPath package_json in
  if fileExists packageJsonPath then
    info ← parsePackageJson packageJsonPath depth;
    match info with
    | Some l => push results [l]
    | None => mret tt
    end
  else mret tt.

(** [searchUpward]; [visited] is threaded through and returned.  Every
    recursive call is on the parent directory, so a path of [n] segments
    needs [n + 1] units of fuel. *)
Fixpoint searchUpward_fuel (fuel : nat) (currentPath : fspath) (maxDepth : Z)
    (results : aloc) (visited : gset fspath) (options : ResolvedOptions)
    (depth : Z) : M (gset fspath) :=
  match fuel with
  | O => mret visited
  | S fuel' =>
      if (maxDepth <? depth) || bool_decide (currentPath ∈ visited) then mret visited
      else
        let visited := {[currentPath]} ∪ visited in
        check_manifest currentPath results depth;;
        let parentPath := dirname currentPath in
        if bool_decide (parentPath ≠ currentPath) then
          searchUpward_fuel fuel' parentPath maxDepth results visited options (depth + 1)
        else mret visited
  end.

Definition searchUpward (currentPath : fspath) (maxDepth : Z) (results : aloc)
    (visited : gset fspath) (options : ResolvedOptions) (depth : Z) : M (gset fspath) :=
  searchUpward_fuel (S (length currentPath)) currentPath maxDepth results visited
    options depth.

(** [searchDownward]; the recursion stops when [depth] exceeds [maxDepth],
    so [maxDepth - depth + 1] units of fuel are enough. *)
Fixpoint searchDownward_fuel (fuel : nat) (currentPath : fspath) (maxDepth : Z)
    (results : aloc) (visited : gset fspath) (options : ResolvedOptions)
    (depth : Z) : M (gset fspath) :=
  match fuel with
  | O => mret visited
  | S fuel' =>
      if (maxDepth <? depth) || bool_decide (currentPath ∈ visited) then mret visited
      else
        let visited := {[currentPath]} ∪ visited in
        check_manifest currentPath results depth;;
        match fs.readdir root currentPath with
        | Ok entries =>
            for_of entries (fun entry visited =>
              if negb (d_isDirectory entry) then mret visited
              else if negb (includeNodeModules options)
                      && String.eqb (d_name entry) "node_modules" then mret visited
              else if shouldSkipDirectory (d_name entry) then mret visited
              else
                let subPath := join currentPath (d_name entry) in
                searchDownward_fuel fuel' subPath maxDepth results visited options
                  (depth + 1)) visited
        | Throw _ => mret visited
        end
  end.

Definition searchDownward (currentPath : fspath) (maxDepth : Z) (results : aloc)
    (visited : gset fspath) (options : ResolvedOptions) (depth : Z) : M (gset fspath) :=
  searchDownward_fuel (Z.to_nat (maxDepth - depth + 1)) currentPath maxDepth results
    visited options depth.

(** [calculateScores]: writes the score of every element of [results]. *)
Definition calculateScores (results : aloc) (startPath : fspath) : M unit :=
  s ← get_state;
  let hasPackageJsonAtStartPath :=
    existsb (fun info => bool_decide (directory info = startPath) && (distance info =? 0))
      (read_array s results) in
  for_of (elements_of s results) (fun l _ =>
    s' ← get_state;
    match info_at s' l with
    | Some info => write_score l (score_of hasPackageJsonAtStartPath startPath info)
    | None => mret tt
    end) tt.

Definition discoverPackageJsonFiles (startPath : fspath) (options : DiscoveryOptions)
    : M aloc :=
  let opts := resolve options in
  let key := cacheKey startPath opts in
  s ← get_state;
  match (if cacheResults opts then cache s !! key else None) with
  | Some cached => mret cached
  | None =>
      results ← alloc_array [];
      let visited : gset fspath := ∅ in
      visited ← searchUpward startPath (maxDepthUp opts) results visited opts 0;
      visited ← searchDownward startPath (maxDepthDown opts) results visited opts 0;
      calculateScores results startPath;;
      sort_by_score results;;
      (if cacheResults opts then cache_set key results else mret tt);;
      mret results
  end.
End Discovery.

Section DiscoveryApi.
Context (root : node).

Definition clearCache : M unit := fun s => (tt, set_cache (fun _ => ∅) s).

(** [vscode.workspace.workspaceFolders], as handed over by the editor. *)
Definition refreshWorkspaceRoots (folders : list fspath) : M unit :=
  fun s => clearCache (set_workspaceRoots folders s).

Definition getBestPackageJson (startPath : fspath) (options : DiscoveryOptions)
    : M (option loc) :=
  let opts := resolve options in
  results ← discoverPackageJsonFiles root startPath (as_options opts);
  s ← get_state;
  let hasPackageJsonAtStartPath :=
    existsb (fun info => bool_decide (directory info = startPath)) (read_array s results) in
  (if negb hasPackageJsonAtStartPath && (0 <? maxDepthDown opts) then
     childResults ← discoverPackageJsonFiles root startPath
       {| o_maxDepthUp := Some 0;
          o_maxDepthDown := Some (Z.min (maxDepthDown opts) 2);
          o_includeNodeModules := Some (includeNodeModules opts);
          o_workspaceRootsOnly := Some (workspaceRootsOnly opts);
          o_cacheResults := Some false |};
     s ← get_state;
     push results (elements_of s childResults);;
     calculateScores results startPath;;
     sort_by_score results
   else mret tt);;
  s ← get_state;
  mret (head (elements_of s results)).

(** [arr.findIndex(pred)] *)
Fixpoint findIndex {A} (pred : A -> bool) (arr : list A) : option nat :=
  match arr with
  | [] => None
  | x :: rest => if pred x then Some 0%nat else S <$> findIndex pred rest
  end.

(** [arr.filter((item, index, arr) =>
      arr.findIndex(other => same(other, item)) === index)] *)
Definition filter_first {A} (same : A -> A -> bool) (arr : list A) : list A :=
  omap (fun '(index, item) =>
          if bool_decide (findIndex (fun other => same other item) arr = Some index)
          then Some item else None)
       (imap pair arr).

Definition path_at (s : State) (l : loc) : option fspath := path <$> info_at s l.

Definition getWorkspacePackageJsonFiles : M aloc :=
  s ← get_state;
  allResults ← for_of (workspaceRoots s) (fun workspaceRoot allResults =>
    results ← discoverPackageJsonFiles root workspaceRoot
      {| o_maxDepthUp := Some 0; o_maxDepthDown := Some 10; o_includeNodeModules := None;
         o_workspaceRootsOnly := None; o_cacheResults := None |};
    s ← get_state;
    mret (allResults ++ elements_of s results)) [];
  s ← get_state;
  let uniqueResults :=
    filter_first (fun other item => bool_decide (path_at s other = path_at s item))
      allResults in
  alloc_array (sort_desc (score_at s) uniqueResults).

Definition findPackageJsonInDirectory (dirPath : fspath) : M aloc :=
  discoverPackageJsonFiles root dirPath
    {| o_maxDepthUp := Some 0; o_maxDepthDown := Some 1; o_includeNodeModules := None;
       o_workspaceRootsOnly := None; o_cacheResults := Some false |}.

Definition findChildPackageJsonFiles (startPath : fspath) (maxDepth : Z) : M aloc :=
  discoverPackageJsonFiles root startPath
    {| o_maxDepthUp := Some 0; o_maxDepthDown := Some maxDepth; o_includeNodeModules := None;
       o_workspaceRootsOnly := None; o_cacheResults := Some false |}.

(** [getWorkspaceRoot]: the first known root that is a string prefix. *)
Definition getWorkspaceRoot (filePath : fspath) : M (option fspath) :=
  s ← get_state;
  mret (find (fun r => startsWith (path_str filePath) (path_str r)) (workspaceRoots s)).
End DiscoveryApi.

(** The service as constructed: no cached results, the editor's folders. *)
Definition new_service (folders : list fspath) : State :=
  {| infos := []; arrays := []; cache := ∅; workspaceRoots := folders |}.

(** ** SmartDetectionService *)

Inductive ProjectType := monorepo | single_package | workspace | nested.

(** [ProjectContext]; the advisory [recommendations] strings, which no
    decision reads, are left out. *)
Record ProjectContext := {
  type : ProjectType;
  rootPackageJson : option loc;
  relevantPackageJsons : aloc;
  workspaceRoot : fspath;
  currentPath : fspath
}.

Record SmartDetectionOptions := {
  includeParentProjects : option bool;
  prioritizeWorkspaceRoots : option bool;
  detectMonorepos : option bool;
  analyzeProjectStructure : option bool
}.

Definition no_detection_options : SmartDetectionOptions :=
  {| includeParentProjects := None; prioritizeWorkspaceRoots := None;
     detectMonorepos := None; analyzeProjectStructure := None |}.

(** The filter predicate of [filterRelevantPackageJsons]. *)
Definition is_relevant (pkg : PackageJsonInfo) : bool :=
  if isWorkspaceRoot pkg then true
  else if distance pkg <=? 3 then true
  else if isMonorepoRoot pkg then true
  else if truthy (scripts pkg) && (5 <=? keys_length (scripts pkg))%nat then true
  else false.

Definition detectProjectType (packageJsons : list PackageJsonInfo) (workspaceRoot : fspath)
    : ProjectType :=
  let hasMonorepoRoot := existsb isMonorepoRoot packageJsons in
  if hasMonorepoRoot then monorepo
  else if (1 <? length packageJsons)%nat then
    let hasWorkspaceRoots := existsb isWorkspaceRoot packageJsons in
    if hasWorkspaceRoots then workspace else nested
  else single_package.

(** [first.score > second.score * 1.5] *)
Definition exceeds_one_and_a_half (first second : Z) : bool :=
  negb (Qle_bool (inject_Z first) (inject_Z second * 1.5)).

Section SmartDetection.
Context (root : node).

(** [pkg.score += 100] *)
Definition bump_score (l : loc) : M unit :=
  s ← get_state;
  match info_at s l with
  | Some pkg => if isWorkspaceRoot pkg then write_score l (score pkg + 100) else mret tt
  | None => mret tt
  end.

Definition holds_at (s : State) (pred : PackageJsonInfo -> bool) (l : loc) : bool :=
  match info_at s l with
  | Some pkg => pred pkg
  | None => false
  end.

Definition filterRelevantPackageJsons (allPackageJsons : aloc) (currentPath : fspath)
    (prioritize : bool) : M aloc :=
  s ← get_state;
  let filtered := elements_of s allPackageJsons in
  (if prioritize then for_of filtered (fun l _ => bump_score l) tt else mret tt);;
  s ← get_state;
  let filtered := filter (fun l => holds_at s is_relevant l) filtered in
  alloc_array (sort_desc (score_at s) filtered).

Definition findRootPackageJson (s : State) (packageJsons : list loc)
    (workspaceRoot : fspath) (projectType : ProjectType) : option loc :=
  match packageJsons with
  | [] => None
  | first :: _ =>
      let found :=
        match projectType with
        | monorepo => find (fun l => holds_at s isMonorepoRoot l) packageJsons
        | workspace => find (fun l => holds_at s isWorkspaceRoot l) packageJsons
        | _ => None
        end in
      match found with
      | Some l => Some l
      | None => Some first
      end
  end.

Definition analyzeProjectContext (currentPath : fspath) (options : SmartDetectionOptions)
    : M ProjectContext :=
  let includeParent := default true (includeParentProjects options) in
  let prioritize := default true (prioritizeWorkspaceRoots options) in
  allPackageJsons ← discoverPackageJsonFiles root currentPath
    {| o_maxDepthUp := Some (if includeParent then 10 else 0); o_maxDepthDown := Some 5;
       o_includeNodeModules := None; o_workspaceRootsOnly := None;
       o_cacheResults := None |};
  found ← getWorkspaceRoot currentPath;
  let workspaceRoot := default currentPath found in
  relevantPackageJsons ← filterRelevantPackageJsons allPackageJsons currentPath prioritize;
  s ← get_state;
  let projectType := detectProjectType (read_array s relevantPackageJsons) workspaceRoot in
  let rootPackageJson :=
    findRootPackageJson s (elements_of s relevantPackageJsons) workspaceRoot projectType in
  mret {| type := projectType;
          rootPackageJson := rootPackageJson;
          relevantPackageJsons := relevantPackageJsons;
          workspaceRoot := workspaceRoot;
          currentPath := currentPath |}.

Definition shouldUseSpecificPackageJson (currentPath : fspath) : M (option loc) :=
  context ← analyzeProjectContext currentPath no_detection_options;
  s ← get_state;
  match elements_of s (relevantPackageJsons context) with
  | [only] => mret (Some only)
  | first :: second :: _ =>
      if exceeds_one_and_a_half (score_at s first) (score_at s second)
      then mret (Some first) else mret None
  | [] => mret None
  end.
End SmartDetection.

(** ** Scenario: a repository with a nested package *)

Definition manifest_repo : json :=
  JObj [("name", JStr "repo"); ("scripts", JObj [("build", JStr "tsc"); ("test", JStr "jest")])].
Definition manifest_a : json := JObj [("name", JStr "a")].

Definition repo_tree : node :=
  Dir true [("repo", Dir true
    [("package.json", File (Text (Some manifest_repo)));
     ("pkgs", Dir true [("a", Dir true [("package.json", File (Text (Some manifest_a)))])])])].

Definition down5 : DiscoveryOptions :=
  {| o_maxDepthUp := None; o_maxDepthDown := Some 5; o_includeNodeModules := None;
     o_workspaceRootsOnly := None; o_cacheResults := None |}.

(** ** Vocabulary of the statements *)

(** Descending order: every element is at least as large as its successors. *)
Inductive descending {A} (key : A -> Z) : list A -> Prop :=
| desc_nil : descending key []
| desc_cons x l :
    Forall (fun y => key y <= key x) l -> descending key l -> descending key (x :: l).

(** [a] is [p] or one of its ancestors. *)
Definition ancestor_or_self (a p : fspath) : Prop := a `prefix_of` p.

(** The effect of a search pass on the store: the objects [new] are
    allocated and their locations pushed on the array [results]. *)
Definition append_entries (results : aloc) (new : list PackageJsonInfo) (s : State) : State :=
  {| infos := infos s ++ new;
     arrays := alter (fun elems => elems ++ seq (length (infos s)) (length new)) results
                 (arrays s);
     cache := cache s;
     workspaceRoots := workspaceRoots s |}.

(** [info] is what [parsePackageJson] builds for the manifest of directory
    [d] at distance [dist]. *)
Definition found_at (root : node) (roots : list fspath) (d : fspath) (dist : Z)
    (info : PackageJsonInfo) : Prop :=
  parsePackageJson_try root roots (join d package_json) dist = Ok info.

(** What a pass contributes: manifests of directories it newly visited, at
    positions allowed by [geom], no path twice. *)
Definition pass_ok (root : node) (roots : list fspath) (geom : fspath -> Z -> Prop)
    (visited visited' : gset fspath) (new : list PackageJsonInfo) : Prop :=
  visited ⊆ visited' /\
  NoDup (path <$> new) /\
  Forall (fun info => exists d dist,
            (d ∉ visited) /\ (d ∈ visited') /\ geom d dist /\
            found_at root roots d dist info) new.

Definition up_geom (cur : fspath) (maxDepth depth : Z) (d : fspath) (dist : Z) : Prop :=
  d `prefix_of` cur /\ dist = depth + Z.of_nat (length cur) - Z.of_nat (length d) /\ dist <= maxDepth.

Definition down_geom (cur : fspath) (maxDepth depth : Z) (d : fspath) (dist : Z) : Prop :=
  cur `prefix_of` d /\ dist = depth + Z.of_nat (length d) - Z.of_nat (length cur) /\ dist <= maxDepth.

(** Positions relative to the start path of a discovery run. *)
Definition run_geom (startPath : fspath) (opts : ResolvedOptions) (d : fspath) (dist : Z)
    : Prop :=
  up_geom startPath (maxDepthUp opts) 0 d dist \/
  (maxDepthUp opts < 0 /\ down_geom startPath (maxDepthDown opts) 0 d dist).

(** [calculateScores] on the store: the objects at [elems] are re-scored. *)
Definition rescore (has : bool) (startPath : fspath) (elems : list loc)
    (h : list PackageJsonInfo) : list PackageJsonInfo :=
  imap (fun l info =>
          if bool_decide (l ∈ elems) then with_score (score_of has startPath info) info
          else info) h.

Definition has_at_start (startPath : fspath) (entries : list PackageJsonInfo) : bool :=
  existsb (fun info => bool_decide (directory info = startPath) && (distance info =? 0))
    entries.

(** *** Invariants of the service state *)

Definition entry_ok (info : PackageJsonInfo) : Prop :=
  0 <= score info /\
  directory info = dirname (path info) /\
  isMonorepoRoot info = truthy_opt (workspaces info).

(** What holds of the elements of the array cached for a start path. *)
Definition cached_ok (s : State) (startPath : fspath) (opts : ResolvedOptions)
    (elems : list loc) : Prop :=
  NoDup (path_at s <$> elems) /\
  forall l info, l ∈ elems -> info_at s l = Some info ->
    path info = join (directory info) package_json /\
    (0 <= maxDepthUp opts -> ancestor_or_self (directory info) startPath) /\
    (directory info = startPath -> distance info = 0).

Record Inv (s : State) : Prop := {
  inv_arrays : forall a elems l,
    arrays s !! a = Some elems -> l ∈ elems -> (l < length (infos s))%nat;
  inv_cache : forall k a, cache s !! k = Some a -> (a < length (arrays s))%nat;
  inv_inj : forall k k' a, cache s !! k = Some a -> cache s !! k' = Some a -> k = k';
  inv_infos : forall l info, infos s !! l = Some info -> entry_ok info;
  inv_cached : forall p opts a,
    cache s !! (p, opts) = Some a -> cached_ok s p opts (elements_of s a)
}.

(** *** The calls a client can make, and the states they lead to

    The other public methods change the state as one of these does:
    [findPackageJsonInDirectory], [findNearestParentPackageJson],
    [findChildPackageJsonFiles] and [getPackageJsonByDistance] are calls of
    [discoverPackageJsonFiles]; [getContextualRecommendations] and
    [shouldUseSpecificPackageJson] are calls of [analyzeProjectContext]. *)

Inductive operation :=
| op_discover (root : node) (startPath : fspath) (options : DiscoveryOptions)
| op_getBest (root : node) (startPath : fspath) (options : DiscoveryOptions)
| op_workspaceFiles (root : node)
| op_parse (root : node) (packageJsonPath : fspath) (distance : Z)
| op_clearCache
| op_refreshWorkspaceRoots (folders : list fspath)
| op_analyze (root : node) (currentPath : fspath) (options : SmartDetectionOptions).

Definition run (op : operation) (s : State) : State :=
  match op with
  | op_discover root startPath options => (discoverPackageJsonFiles root startPath options s).2
  | op_getBest root startPath options => (getBestPackageJson root startPath options s).2
  | op_workspaceFiles root => (getWorkspacePackageJsonFiles root s).2
  | op_parse root p d => (parsePackageJson root p d s).2
  | op_clearCache => (clearCache s).2
  | op_refreshWorkspaceRoots folders => (refreshWorkspaceRoots folders s).2
  | op_analyze root currentPath options => (analyzeProjectContext root currentPath options s).2
  end.

(** States of a service after any sequence of calls, each under whatever
    the file system is at that moment. *)
Inductive reachable : State -> Prop :=
| reach_new folders : reachable (new_service folders)
| reach_step op s : reachable s -> reachable (run op s).

(** *** The state after a discovery run that missed the cache *)

(** The entries [new] found by the passes, with the scores written by
    [calculateScores]. *)
Definition scored (startPath : fspath) (new : list PackageJsonInfo) : list PackageJsonInfo :=
  (fun info => with_score (score_of (has_at_start startPath new) startPath info) info)
    <$> new.

Definition fresh_run_state (startPath : fspath) (opts : ResolvedOptions)
    (new : list PackageJsonInfo) (s : State) : State :=
  let h := infos s ++ scored startPath new in
  {| infos := h;
     arrays := arrays s ++ [sort_desc (score_in h) (seq (length (infos s)) (length new))];
     cache := if cacheResults opts
              then <[cacheKey startPath opts := length (arrays s)]> (cache s)
              else cache s;
     workspaceRoots := workspaceRoots s |}.


(** [s'] differs from [s] in [score] fields only, none of them lowered. *)
Definition scores_only (s s' : State) : Prop :=
  arrays s' = arrays s /\ cache s' = cache s /\ workspaceRoots s' = workspaceRoots s /\
  length (infos s') = length (infos s) /\
  forall l i, infos s !! l = Some i ->
    exists i', infos s' !! l = Some i' /\ with_score 0 i' = with_score 0 i /\
               score i <= score i'.


(** The condition under which [getBestPackageJson] makes its supplementary
    probe, on the state [s1] and the array that the discovery returned. *)
Definition probes (p : fspath) (opts : ResolvedOptions) (s1 : State) (results : aloc)
    : bool :=
  negb (existsb (fun info => bool_decide (directory info = p)) (read_array s1 results))
  && (0 <? maxDepthDown opts).

(** *** The scoring formula, as a function of the result set *)

(** [scripts] has an entry for [k]. *)
Definition declares_script (scripts : json) (k : string) : bool :=
  bool_decide (is_Some (prop scripts k)).

(** [scripts] maps [k] to a truthy value, such as a non-empty command. *)
Definition runs_script (scripts : json) (k : string) : bool :=
  truthy_opt (prop scripts k).

Definition score_formula (has_script : json -> string -> bool)
    (resultSet : list PackageJsonInfo) (startPath : fspath) (info : PackageJsonInfo) : Z :=
  Z.max 0 (100 - distance info * 10)
  + (if isWorkspaceRoot info then 50 else 0)
  + (if isMonorepoRoot info then 30 else 0)
  + (if (0 <? keys_length (scripts info))%nat then 20 else 0)
  + (if existsb (has_script (scripts info)) commonScripts then 15 else 0)
  + (if bool_decide (directory info = startPath) then 25 else 0)
  + (if negb (existsb (fun e => bool_decide (directory e = startPath)) resultSet)
        && (distance info =? 1)
     then 40 else 0).

(** The formula of the specification: the 15 points go to scripts that
    contain one of the common names. *)
Definition claimed_score := score_formula declares_script.

(** *** Readings of "the manifest declares a workspaces field" *)

Definition declares_workspaces (manifest : json) : Prop :=
  is_Some (prop manifest "workspaces").

(** An array, or an object with a [packages] array. *)
Definition workspaces_shape (manifest : json) : bool :=
  match prop manifest "workspaces" with
  | Some (JArr _) => true
  | Some (JObj fields) =>
      match prop (JObj fields) "packages" with
      | Some (JArr _) => true
      | _ => false
      end
  | _ => false
  end.

(** ** Further scenarios *)

Definition single_manifest_tree (manifest : json) : node :=
  Dir true [("repo", Dir true [("package.json", File (Text (Some manifest)))])].

(** A [build] script with an empty command. *)
Definition manifest_empty_build : json :=
  JObj [("name", JStr "repo"); ("scripts", JObj [("build", JStr "")])].

Definition manifest_workspaces_null : json :=
  JObj [("name", JStr "repo"); ("workspaces", JNull)].

Definition manifest_workspaces_string : json :=
  JObj [("name", JStr "repo"); ("workspaces", JStr "packages/*")].

(** A folder one level above the project. *)
Definition work_tree : node :=
  Dir true [("work", Dir true
    [("app", Dir true [("package.json", File (Text (Some manifest_repo)))])])].

Definition downward_only : DiscoveryOptions :=
  {| o_maxDepthUp := Some (-1); o_maxDepthDown := Some 5; o_includeNodeModules := None;
     o_workspaceRootsOnly := None; o_cacheResults := None |}.


(** * Properties *)

(** ** Sorting *)

Section Sorting.
Context {A : Type} (key : A -> Z).

Lemma insert_desc_perm x l : insert_desc key x l ≡ₚ x :: l.
Proof.
  induction l as [|y l IH]; simpl; [done|].
  destruct (key y <=? key x); [done|].
  rewrite IH. apply Permutation_swap.
Qed.

Lemma sort_desc_perm l : sort_desc key l ≡ₚ l.
Proof.
  induction l as [|x l IH]; simpl; [done|].
  rewrite insert_desc_perm. by rewrite IH.
Qed.

Lemma sort_desc_elem x l : x ∈ sort_desc key l ↔ x ∈ l.
Proof. by rewrite sort_desc_perm. Qed.

Lemma sort_desc_length l : length (sort_desc key l) = length l.
Proof. by rewrite sort_desc_perm. Qed.

Lemma insert_desc_descending x l : descending key l -> descending key (insert_desc key x l).
Proof.
  induction 1 as [|y l Hy Hl IH]; simpl.
  - constructor; [constructor | constructor].
  - destruct (Z.leb_spec (key y) (key x)) as [Hle|Hgt].
    + constructor; [|by constructor].
      constructor; [done|].
      eapply Forall_impl; [exact Hy|]. simpl. intros z Hz. lia.
    + constructor; [|done].
      rewrite insert_desc_perm. constructor; [lia | done].
Qed.

Lemma sort_desc_descending l : descending key (sort_desc key l).
Proof.
  induction l as [|x l IH]; simpl; [constructor|].
  by apply insert_desc_descending.
Qed.

Lemma descending_lookup l i j x y :
  descending key l -> (i <= j)%nat -> l !! i = Some x -> l !! j = Some y -> key y <= key x.
Proof.
  intros Hd. revert i j x y.
  induction Hd as [|z l Hz Hd IH]; intros i j x y Hij Hi Hj.
  - by rewrite lookup_nil in Hi.
  - destruct i as [|i]; simpl in Hi.
    + injection Hi as ->. destruct j as [|j]; simpl in Hj.
      * injection Hj as ->. lia.
      * rewrite Forall_forall in Hz. apply Hz.
        eapply list_elem_of_lookup_2. exact Hj.
    + destruct j as [|j]; [lia|]. simpl in Hj.
      apply (IH i j); [lia | done | done].
Qed.
End Sorting.

(** ** Paths *)

Lemma dirname_join p name : dirname (join p name) = p.
Proof. unfold dirname, join. apply removelast_last. Qed.

Lemma join_inj p q name : join p name = join q name -> p = q.
Proof. unfold join. intros H. by apply app_inj_tail in H as [-> _]. Qed.

Lemma dirname_prefix p : dirname p `prefix_of` p.
Proof.
  unfold dirname. destruct p as [|x p] using rev_ind; [done|].
  rewrite removelast_last. by apply prefix_app_r.
Qed.

Lemma dirname_length p : dirname p <> p -> length p = S (length (dirname p)).
Proof.
  unfold dirname. destruct p as [|x p] using rev_ind; [done|].
  intros _. rewrite removelast_last, length_app. simpl. lia.
Qed.

Lemma prefix_same_length (p q : fspath) : p `prefix_of` q -> length p = length q -> p = q.
Proof.
  intros [k ->] Hlen. rewrite length_app in Hlen.
  destruct k; [by rewrite app_nil_r | simpl in Hlen; lia].
Qed.

(** ** The store *)

(** Unfolds the sequencing of the two monads. *)
Ltac run_m :=
  cbv [mbind mret M_bind M_ret res_bind res_ret get_state try_catch] in *.

Lemma state_eq s1 s2 :
  infos s1 = infos s2 -> arrays s1 = arrays s2 -> cache s1 = cache s2 ->
  workspaceRoots s1 = workspaceRoots s2 -> s1 = s2.
Proof. destruct s1, s2; simpl; by intros -> -> -> ->. Qed.

Lemma append_entries_nil r s : append_entries r [] s = s.
Proof.
  apply state_eq; simpl; try done.
  - by rewrite app_nil_r.
  - apply list_alter_id. intros x. by rewrite app_nil_r.
Qed.

Lemma append_entries_app r n1 n2 s :
  append_entries r n2 (append_entries r n1 s) = append_entries r (n1 ++ n2) s.
Proof.
  apply state_eq; simpl; try done.
  - by rewrite app_assoc.
  - rewrite list_alter_alter_eq. apply list_alter_ext; [|done].
    intros x _. simpl. rewrite !length_app, seq_app, app_assoc. done.
Qed.

(** ** Parsing one manifest *)

Section Parse.
Context (root : node).

Lemma parsePackageJson_run p d s :
  parsePackageJson root p d s =
    match parsePackageJson_try root (workspaceRoots s) p d with
    | Ok info => (Some (length (infos s)), set_infos (fun h => h ++ [info]) s)
    | Throw _ => (None, s)
    end.
Proof.
  unfold parsePackageJson. run_m.
  by destruct (parsePackageJson_try root (workspaceRoots s) p d).
Qed.

Lemma parse_try_fields roots p d info :
  parsePackageJson_try root roots p d = Ok info ->
  exists j,
    fs.readFile root p = Ok (Some j) /\ j <> JNull /\
    path info = p /\ directory info = dirname p /\
    name info = prop j "name" /\ version info = prop j "version" /\
    scripts info = js_or (prop j "scripts") (JObj []) /\
    isWorkspaceRoot info = bool_decide (dirname p ∈ roots) /\
    isMonorepoRoot info = truthy_opt (prop j "workspaces") /\
    workspaces info = prop j "workspaces" /\
    distance info = d /\ score info = 0.
Proof.
  unfold parsePackageJson_try.
  destruct (fs.readFile root p) as [[j|]|e]; simpl; [|done|done].
  destruct j; simpl; try done;
    intros [= <-]; eexists; (split; [reflexivity|]); simpl; repeat split; done.
Qed.

Lemma found_at_fields roots d dist info :
  found_at root roots d dist info ->
  path info = join d package_json /\ directory info = d /\ distance info = dist /\
  score info = 0 /\ isMonorepoRoot info = truthy_opt (workspaces info).
Proof.
  intros H. apply parse_try_fields in H as (j & _ & _ & Hp & Hd & _ & _ & _ & _ & Hm & Hw & Hdist & Hs).
  rewrite dirname_join in Hd. rewrite Hw. done.
Qed.

Lemma check_manifest_spec cur r depth s :
  exists new,
    check_manifest root cur r depth s = (tt, append_entries r new s) /\
    (new = [] \/ exists info, new = [info] /\ found_at root (workspaceRoots s) cur depth info).
Proof.
  unfold check_manifest.
  destruct (fileExists root (join cur package_json)).
  - run_m. rewrite parsePackageJson_run.
    destruct (parsePackageJson_try root (workspaceRoots s) (join cur package_json) depth)
      as [info|e] eqn:E.
    + exists [info]. split; [|right; by exists info].
      unfold push. apply f_equal. by apply state_eq.
    + exists []. split; [|by left]. by rewrite append_entries_nil.
  - exists []. split; [|by left]. by rewrite append_entries_nil.
Qed.
End Parse.

(** ** The two search passes *)

Section Passes.
Context (root : node).

Lemma pass_ok_nil roots geom v : pass_ok root roots geom v v [].
Proof. repeat split; [done | constructor | constructor]. Qed.

Lemma pass_ok_path roots geom v v' new info :
  pass_ok root roots geom v v' new -> info ∈ new ->
  exists d, (d ∉ v) /\ (d ∈ v') /\ path info = join d package_json.
Proof.
  intros (_ & _ & Hall) Hin. rewrite Forall_forall in Hall.
  destruct (Hall _ Hin) as (d & dist & Hd1 & Hd2 & _ & Hf).
  apply found_at_fields in Hf as (Hp & _). by exists d.
Qed.

Lemma pass_ok_app roots geom v0 v1 v2 n1 n2 :
  pass_ok root roots geom v0 v1 n1 -> pass_ok root roots geom v1 v2 n2 ->
  pass_ok root roots geom v0 v2 (n1 ++ n2).
Proof.
  intros H1 H2.
  pose proof H1 as (Hs1 & Hn1 & Ha1). pose proof H2 as (Hs2 & Hn2 & Ha2).
  split; [set_solver|]. split.
  - rewrite fmap_app. apply NoDup_app. split; [done|]. split; [|done].
    intros p Hp1 Hp2.
    apply list_elem_of_fmap in Hp1 as (i1 & -> & Hi1).
    apply list_elem_of_fmap in Hp2 as (i2 & Heq & Hi2).
    destruct (pass_ok_path _ _ _ _ _ _ H1 Hi1) as (d1 & _ & Hd1 & Hp1).
    destruct (pass_ok_path _ _ _ _ _ _ H2 Hi2) as (d2 & Hd2 & _ & Hp2).
    rewrite Hp1, Hp2 in Heq. apply join_inj in Heq. subst d2. done.
  - apply Forall_app. split.
    + eapply Forall_impl; [exact Ha1|]. simpl.
      intros i (d & dist & ? & ? & ? & ?). exists d, dist. set_solver.
    + eapply Forall_impl; [exact Ha2|]. simpl.
      intros i (d & dist & ? & ? & ? & ?). exists d, dist. set_solver.
Qed.

Lemma pass_ok_impl roots (geom geom' : fspath -> Z -> Prop) v v' new :
  (forall d dist, geom d dist -> geom' d dist) ->
  pass_ok root roots geom v v' new -> pass_ok root roots geom' v v' new.
Proof.
  intros Himp (Hs & Hn & Ha). repeat split; [done | done |].
  eapply Forall_impl; [exact Ha|]. simpl.
  intros i (d & dist & ? & ? & ? & ?). exists d, dist. auto.
Qed.

Lemma pass_ok_visit roots (geom : fspath -> Z -> Prop) v cur depth new :
  cur ∉ v -> geom cur depth ->
  (new = [] \/ exists info, new = [info] /\ found_at root roots cur depth info) ->
  pass_ok root roots geom v ({[cur]} ∪ v) new.
Proof.
  intros Hcur Hg [->|(info & -> & Hf)].
  - repeat split; [set_solver | constructor | constructor].
  - repeat split; [set_solver | |].
    + simpl. apply NoDup_singleton.
    + constructor; [|constructor]. exists cur, depth. set_solver.
Qed.

Lemma for_of_pass {A} (body : A -> gset fspath -> M (gset fspath)) r roots geom xs :
  (forall x v s, x ∈ xs -> workspaceRoots s = roots ->
     exists v' new, body x v s = (v', append_entries r new s) /\
                    pass_ok root roots geom v v' new) ->
  forall v s, workspaceRoots s = roots ->
    exists v' new, for_of xs body v s = (v', append_entries r new s) /\
                   pass_ok root roots geom v v' new.
Proof.
  induction xs as [|x xs IH]; intros Hbody v s Hs.
  - exists v, []. split; [by rewrite append_entries_nil | apply pass_ok_nil].
  - simpl. run_m.
    destruct (Hbody x v s) as (v1 & n1 & E1 & P1); [left | done |].
    rewrite E1.
    destruct (IH (fun y w t Hy => Hbody y w t (list_elem_of_further _ _ _ Hy)) v1
                (append_entries r n1 s) Hs) as (v2 & n2 & E2 & P2).
    rewrite E2. exists v2, (n1 ++ n2). split; [by rewrite append_entries_app|].
    by eapply pass_ok_app.
Qed.

Lemma searchUpward_fuel_spec fuel : forall cur maxDepth r visited opts depth s,
  (length cur < fuel)%nat ->
  exists visited' new,
    searchUpward_fuel root fuel cur maxDepth r visited opts depth s
      = (visited', append_entries r new s) /\
    pass_ok root (workspaceRoots s) (up_geom cur maxDepth depth) visited visited' new /\
    (depth <= maxDepth -> cur ∈ visited').
Proof.
  induction fuel as [|fuel IH]; intros cur maxDepth r visited opts depth s Hfuel; [lia|].
  simpl.
  destruct (Z.ltb_spec maxDepth depth) as [Hd|Hd]; simpl.
  { exists visited, []. rewrite append_entries_nil.
    split; [done|]. split; [apply pass_ok_nil | lia]. }
  case_bool_decide as Hv.
  { exists visited, []. rewrite append_entries_nil.
    split; [done|]. split; [apply pass_ok_nil | done]. }
  run_m.
  destruct (check_manifest_spec root cur r depth s) as (n1 & E1 & Hn1). rewrite E1.
  assert (pass_ok root (workspaceRoots s) (up_geom cur maxDepth depth) visited
            ({[cur]} ∪ visited) n1) as P1.
  { apply (pass_ok_visit _ _ _ _ depth); [done | | done].
    split; [done|]. split; lia. }
  case_bool_decide as Hp.
  - destruct (IH (dirname cur) maxDepth r ({[cur]} ∪ visited) opts (depth + 1)
                (append_entries r n1 s)) as (v2 & n2 & E2 & P2 & _).
    { pose proof (dirname_length cur Hp). lia. }
    exists v2, (n1 ++ n2).
    split; [rewrite <- append_entries_app; exact E2|]. split.
    + eapply pass_ok_app; [exact P1|].
      eapply pass_ok_impl; [|exact P2].
      intros d dist (Hpre & Hdist & Hmax). split.
      * etrans; [exact Hpre | apply dirname_prefix].
      * pose proof (dirname_length cur Hp). split; lia.
    + intros _. destruct P2 as (Hsub & _). set_solver.
  - exists ({[cur]} ∪ visited), n1. split; [done|]. split; [done | set_solver].
Qed.

Lemma searchUpward_fuel_enough fuel : forall cur maxDepth r visited opts depth s,
  (length cur < fuel)%nat ->
  searchUpward_fuel root fuel cur maxDepth r visited opts depth s
    = searchUpward root cur maxDepth r visited opts depth s.
Proof.
  unfold searchUpward.
  induction fuel as [|fuel IH]; intros cur maxDepth r visited opts depth s Hfuel; [lia|].
  simpl. destruct (_ || _); [done|]. run_m.
  destruct (check_manifest root cur r depth s) as [[] s1].
  case_bool_decide as Hp; [|done].
  pose proof (dirname_length cur Hp) as Hlen.
  rewrite IH by lia. rewrite Hlen. done.
Qed.
Lemma for_of_ext {A B} (body body' : A -> B -> M B) xs :
  (forall x acc s, body x acc s = body' x acc s) ->
  forall acc s, for_of xs body acc s = for_of xs body' acc s.
Proof.
  intros Hext. induction xs as [|x xs IH]; intros acc s; [done|].
  simpl. run_m. rewrite Hext. destruct (body' x acc s) as [acc' s']. apply IH.
Qed.

Lemma searchDownward_fuel_spec fuel : forall cur maxDepth r visited opts depth s,
  exists visited' new,
    searchDownward_fuel root fuel cur maxDepth r visited opts depth s
      = (visited', append_entries r new s) /\
    pass_ok root (workspaceRoots s) (down_geom cur maxDepth depth) visited visited' new /\
    (cur ∈ visited -> new = [] /\ visited' = visited).
Proof.
  induction fuel as [|fuel IH]; intros cur maxDepth r visited opts depth s.
  { exists visited, []. rewrite append_entries_nil.
    split; [done|]. split; [apply pass_ok_nil | done]. }
  simpl.
  destruct (Z.ltb_spec maxDepth depth) as [Hd|Hd]; simpl.
  { exists visited, []. rewrite append_entries_nil.
    split; [done|]. split; [apply pass_ok_nil | done]. }
  case_bool_decide as Hv.
  { exists visited, []. rewrite append_entries_nil.
    split; [done|]. split; [apply pass_ok_nil | done]. }
  run_m.
  destruct (check_manifest_spec root cur r depth s) as (n1 & E1 & Hn1). rewrite E1.
  assert (pass_ok root (workspaceRoots s) (down_geom cur maxDepth depth) visited
            ({[cur]} ∪ visited) n1) as P1.
  { apply (pass_ok_visit _ _ _ _ depth); [done | | done].
    split; [done|]. split; lia. }
  destruct (fs.readdir root cur) as [entries|e].
  - match goal with
    | |- context [for_of entries ?b _ _] =>
        destruct (for_of_pass b r (workspaceRoots s) (down_geom cur maxDepth depth)
                    entries) with (v := {[cur]} ∪ visited) (s := append_entries r n1 s)
          as (v2 & n2 & E2 & P2)
    end.
    + intros x v t _ Ht.
      destruct (negb (d_isDirectory x)).
      { exists v, []. rewrite append_entries_nil. split; [done | apply pass_ok_nil]. }
      destruct (_ && _).
      { exists v, []. rewrite append_entries_nil. split; [done | apply pass_ok_nil]. }
      destruct (shouldSkipDirectory _).
      { exists v, []. rewrite append_entries_nil. split; [done | apply pass_ok_nil]. }
      destruct (IH (join cur (d_name x)) maxDepth r v opts (depth + 1) t)
        as (v' & new & E & P & _).
      exists v', new. split; [exact E|]. rewrite Ht in P.
      eapply pass_ok_impl; [|exact P].
      intros d dist (Hpre & Hdist & Hmax). split.
      * etrans; [|exact Hpre]. unfold join. by apply prefix_app_r.
      * unfold join in Hdist. rewrite length_app in Hdist. simpl in Hdist. split; lia.
    + done.
    + exists v2, (n1 ++ n2).
      split; [rewrite <- append_entries_app; exact E2|].
      split; [by eapply pass_ok_app | done].
  - exists ({[cur]} ∪ visited), n1. split; [done|]. split; [done | done].
Qed.

Lemma searchDownward_fuel_enough fuel : forall cur maxDepth r visited opts depth s,
  (Z.to_nat (maxDepth - depth + 1) <= fuel)%nat ->
  searchDownward_fuel root fuel cur maxDepth r visited opts depth s
    = searchDownward root cur maxDepth r visited opts depth s.
Proof.
  unfold searchDownward.
  induction fuel as [|fuel IH]; intros cur maxDepth r visited opts depth s Hfuel.
  { replace (Z.to_nat (maxDepth - depth + 1)) with 0%nat by lia. done. }
  destruct (Z.ltb_spec maxDepth depth) as [Hd|Hd].
  { replace (Z.to_nat (maxDepth - depth + 1)) with 0%nat by lia.
    simpl. destruct (Z.ltb_spec maxDepth depth); [done | lia]. }
  replace (Z.to_nat (maxDepth - depth + 1))
    with (S (Z.to_nat (maxDepth - (depth + 1) + 1))) by lia.
  simpl. destruct (_ || _); [done|]. run_m.
  destruct (check_manifest root cur r depth s) as [[] s1].
  destruct (fs.readdir root cur) as [entries|e]; [|done].
  apply for_of_ext. intros x acc t.
  destruct (negb _); [done|]. destruct (_ && _); [done|].
  destruct (shouldSkipDirectory _); [done|].
  apply IH. lia.
Qed.
End Passes.

(** ** Scoring *)

Lemma score_of_with_score has p v info :
  score_of has p (with_score v info) = score_of has p info.
Proof. done. Qed.

Lemma with_score_with_score v w info : with_score v (with_score w info) = with_score v info.
Proof. done. Qed.

Lemma rescore_lookup has p elems h j :
  rescore has p elems h !! j =
    (fun info => if bool_decide (j ∈ elems)
                 then with_score (score_of has p info) info else info) <$> h !! j.
Proof. unfold rescore. by rewrite list_lookup_imap. Qed.

Lemma rescore_length has p elems h : length (rescore has p elems h) = length h.
Proof. unfold rescore. by rewrite length_imap. Qed.

Lemma rescore_nil has p h : rescore has p [] h = h.
Proof.
  apply list_eq. intros j. rewrite rescore_lookup.
  by destruct (h !! j).
Qed.

Lemma rescore_step has p seen l h :
  match rescore has p seen h !! l with
  | Some info => alter (with_score (score_of has p info)) l (rescore has p seen h)
  | None => rescore has p seen h
  end = rescore has p (seen ++ [l]) h.
Proof.
  apply list_eq. intros j.
  destruct (rescore has p seen h !! l) as [info|] eqn:E.
  - rewrite rescore_lookup in E.
    destruct (h !! l) as [i0|] eqn:E0; simpl in E; [|done]. injection E as <-.
    rewrite list_lookup_alter. case_decide as Hj.
    + subst j. rewrite !rescore_lookup, E0. simpl.
      rewrite (bool_decide_eq_true_2 (l ∈ seen ++ [l])) by set_solver.
      case_bool_decide; by rewrite ?score_of_with_score, ?with_score_with_score.
    + rewrite !rescore_lookup. destruct (h !! j); simpl; [|done].
      f_equal.
      assert (j ∈ seen ↔ j ∈ seen ++ [l]) as Hiff by set_solver.
      by rewrite (bool_decide_ext _ _ Hiff).
  - rewrite rescore_lookup in E. rewrite !rescore_lookup.
    destruct (h !! j) as [i0|] eqn:E0; simpl; [|done].
    assert (j <> l) by (intros ->; rewrite E0 in E; done).
    assert (j ∈ seen ↔ j ∈ seen ++ [l]) as Hiff by set_solver.
    by rewrite (bool_decide_ext _ _ Hiff).
Qed.

Lemma rescore_loop has p todo : forall seen s0,
  for_of todo (fun l (_ : unit) =>
      s' ← get_state;
      match info_at s' l with
      | Some info => write_score l (score_of has p info)
      | None => mret tt
      end) tt (set_infos (rescore has p seen) s0)
  = (tt, set_infos (rescore has p (seen ++ todo)) s0).
Proof.
  induction todo as [|l todo IH]; intros seen s0.
  - simpl. by rewrite app_nil_r.
  - simpl. run_m. unfold info_at, write_score. simpl.
    pose proof (rescore_step has p seen l (infos s0)) as Hstep.
    destruct (rescore has p seen (infos s0) !! l) as [info|] eqn:E.
    + specialize (IH (seen ++ [l]) s0). rewrite <- app_assoc in IH. simpl in IH.
      rewrite <- IH. f_equal. apply state_eq; simpl; try done.
    + specialize (IH (seen ++ [l]) s0). rewrite <- app_assoc in IH. simpl in IH.
      rewrite <- IH. f_equal. apply state_eq; simpl; try done.
Qed.

Lemma calculateScores_run r p s :
  calculateScores r p s
  = (tt, set_infos (rescore (has_at_start p (read_array s r)) p (elements_of s r)) s).
Proof.
  unfold calculateScores. run_m.
  pose proof (rescore_loop (has_at_start p (read_array s r)) p (elements_of s r) [] s) as H.
  simpl in H. rewrite <- H. f_equal.
  apply state_eq; simpl; try done. by rewrite rescore_nil.
Qed.

(** ** A discovery run *)

Lemma omap_lookup_seq {A} (h x : list A) :
  omap (fun l => (h ++ x) !! l) (seq (length h) (length x)) = x.
Proof.
  revert h. induction x as [|a x IH]; intros h; [done|].
  simpl. rewrite lookup_app_r, Nat.sub_diag by lia. simpl. f_equal.
  specialize (IH (h ++ [a])). rewrite length_app, <- app_assoc in IH. simpl in IH.
  by rewrite Nat.add_1_r in IH.
Qed.

Lemma elements_of_snoc s elems :
  elements_of (set_arrays (fun h => h ++ [elems]) s) (length (arrays s)) = elems.
Proof.
  unfold elements_of. simpl.
  by rewrite lookup_app_r, Nat.sub_diag by lia.
Qed.

Lemma alter_snoc {A} (f : A -> A) (h : list A) x :
  alter f (length h) (h ++ [x]) = h ++ [f x].
Proof.
  pose proof (alter_app_r f h [x] 0) as H. by rewrite Nat.add_0_r in H.
Qed.

Lemma rescore_fresh has p (h new : list PackageJsonInfo) :
  rescore has p (seq (length h) (length new)) (h ++ new)
  = h ++ ((fun info => with_score (score_of has p info) info) <$> new).
Proof.
  apply list_eq. intros j. rewrite rescore_lookup.
  destruct (decide (j < length h)%nat) as [Hj|Hj].
  - rewrite !lookup_app_l by done.
    destruct (h !! j); simpl; [|done].
    rewrite bool_decide_eq_false_2; [done|]. rewrite elem_of_seq. lia.
  - rewrite !lookup_app_r by lia. rewrite list_lookup_fmap.
    destruct (new !! (j - length h)%nat) as [i|] eqn:E; simpl; [|done].
    apply lookup_lt_Some in E.
    rewrite bool_decide_eq_true_2; [done|]. rewrite elem_of_seq. lia.
Qed.

Section Run.
Context (root : node).

Lemma search_both_spec p opts r s :
  exists v new,
    (visited ← searchUpward root p (maxDepthUp opts) r ∅ opts 0;
     searchDownward root p (maxDepthDown opts) r visited opts 0) s
      = (v, append_entries r new s) /\
    pass_ok root (workspaceRoots s) (run_geom p opts) ∅ v new.
Proof.
  run_m. unfold searchUpward, searchDownward.
  destruct (searchUpward_fuel_spec root (S (length p)) p (maxDepthUp opts) r ∅ opts 0 s)
    as (v1 & n1 & E1 & P1 & Hin); [lia|].
  rewrite E1.
  destruct (searchDownward_fuel_spec root (Z.to_nat (maxDepthDown opts - 0 + 1)) p
              (maxDepthDown opts) r v1 opts 0 (append_entries r n1 s))
    as (v2 & n2 & E2 & P2 & Hskip).
  exists v2, (n1 ++ n2). split; [rewrite <- append_entries_app; exact E2|].
  eapply pass_ok_app.
  - eapply pass_ok_impl; [|exact P1]. intros d dist Hg. by left.
  - destruct (decide (0 <= maxDepthUp opts)) as [Hup|Hup].
    + destruct (Hskip (Hin Hup)) as [-> ->]. apply pass_ok_nil.
    + eapply pass_ok_impl; [|exact P2]. intros d dist Hg. right. split; [lia | done].
Qed.

Lemma discover_hit p options a s :
  cacheResults (resolve options) = true ->
  cache s !! cacheKey p (resolve options) = Some a ->
  discoverPackageJsonFiles root p options s = (a, s).
Proof. intros Hc Hk. unfold discoverPackageJsonFiles. run_m. by rewrite Hc, Hk. Qed.

Lemma discover_miss p options s :
  (if cacheResults (resolve options)
   then cache s !! cacheKey p (resolve options) else None) = None ->
  exists v new,
    discoverPackageJsonFiles root p options s
      = (length (arrays s), fresh_run_state p (resolve options) new s) /\
    pass_ok root (workspaceRoots s) (run_geom p (resolve options)) ∅ v new.
Proof.
  intros Hmiss. unfold discoverPackageJsonFiles.
  set (opts := resolve options) in *. run_m. rewrite Hmiss. unfold alloc_array.
  set (s1 := set_arrays (fun h => h ++ [[]]) s).
  set (r := length (arrays s)).
  destruct (search_both_spec p opts r s1) as (v & new & E & P).
  run_m. 
  destruct (searchUpward root p (maxDepthUp opts) r ∅ opts 0 s1) as [v1 s2].
  rewrite E. exists v, new. split; [|exact P].
  rewrite calculateScores_run. unfold sort_by_score.
  assert (elements_of (append_entries r new s1) r
          = seq (length (infos s)) (length new)) as Hel.
  { unfold elements_of, append_entries, s1, r. simpl.
    rewrite alter_snoc. by rewrite lookup_app_r, Nat.sub_diag by lia. }
  assert (read_array (append_entries r new s1) r = new) as Hread.
  { unfold read_array. rewrite Hel. unfold info_at. simpl. apply omap_lookup_seq. }
  rewrite Hel, Hread.
  assert (forall c : gmap CacheKey aloc,
    {| infos := rescore (has_at_start p new) p (seq (length (infos s)) (length new))
                  (infos s ++ new);
       arrays := alter (sort_desc (score_in
                    (rescore (has_at_start p new) p (seq (length (infos s)) (length new))
                       (infos s ++ new)))) r
                   (alter (fun elems => elems ++ seq (length (infos s)) (length new)) r
                      (arrays s ++ [[]]));
       cache := c; workspaceRoots := workspaceRoots s |}
    = {| infos := infos s ++ scored p new;
         arrays := arrays s ++ [sort_desc (score_in (infos s ++ scored p new))
                                  (seq (length (infos s)) (length new))];
         cache := c; workspaceRoots := workspaceRoots s |}) as Heq.
  { intros c. rewrite rescore_fresh. unfold r. rewrite !alter_snoc. done. }
  unfold fresh_run_state, cache_set. fold opts.
  destruct (cacheResults opts); simpl; f_equal; apply Heq.
Qed.
End Run.

(** ** Invariants *)

Lemma score_of_nonneg has p info : 0 <= score_of has p info.
Proof.
  unfold score_of.
  repeat match goal with
         | |- context [if ?b then _ else _] => destruct b
         end; lia.
Qed.

Lemma path_at_same_fields s s' l :
  with_score 0 <$> info_at s' l = with_score 0 <$> info_at s l -> path_at s' l = path_at s l.
Proof.
  unfold path_at. intros H.
  destruct (info_at s' l) as [i'|], (info_at s l) as [i|]; simpl in *; try done.
  assert (with_score 0 i' = with_score 0 i) as Hw by congruence.
  apply (f_equal path) in Hw. simpl in Hw. by rewrite Hw.
Qed.

Lemma cached_ok_transfer s s' p opts elems :
  (forall l, l ∈ elems -> with_score 0 <$> info_at s' l = with_score 0 <$> info_at s l) ->
  cached_ok s p opts elems -> cached_ok s' p opts elems.
Proof.
  intros Hsame (Hnd & Hall). split.
  - replace (path_at s' <$> elems) with (path_at s <$> elems); [done|].
    apply list_fmap_ext. intros j l Hl. symmetry. apply path_at_same_fields, Hsame.
    by eapply list_elem_of_lookup_2.
  - intros l i' Hl Hi'. specialize (Hsame l Hl). rewrite Hi' in Hsame.
    destruct (info_at s l) as [i|] eqn:Hi; simpl in Hsame; [|done].
    assert (with_score 0 i' = with_score 0 i) as Hw by congruence.
    clear Hsame. rename Hw into Hsame.
    destruct (Hall l i Hl Hi) as (H1 & H2 & H3).
    pose proof (f_equal path Hsame) as Ep. pose proof (f_equal directory Hsame) as Ed.
    pose proof (f_equal distance Hsame) as Ez. simpl in Ep, Ed, Ez.
    rewrite Ep, Ed, Ez. done.
Qed.

Lemma cached_ok_perm s p opts elems elems' :
  elems' ≡ₚ elems -> cached_ok s p opts elems -> cached_ok s p opts elems'.
Proof.
  intros Hp (Hnd & Hall). split.
  - by rewrite Hp.
  - intros l i Hl. apply Hall. by rewrite <- Hp.
Qed.

Lemma elements_of_lookup s a elems : arrays s !! a = Some elems -> elements_of s a = elems.
Proof. unfold elements_of. by intros ->. Qed.

Lemma elements_of_bound s a l :
  l ∈ elements_of s a -> exists elems, arrays s !! a = Some elems /\ l ∈ elems.
Proof.
  unfold elements_of. destruct (arrays s !! a) as [elems|]; simpl.
  - intros H. by exists elems.
  - intros H. by apply elem_of_nil in H.
Qed.

(** Writes to [score] fields only. *)
Lemma Inv_scores s s' :
  Inv s -> arrays s' = arrays s -> cache s' = cache s ->
  length (infos s') = length (infos s) ->
  (forall l i, infos s !! l = Some i ->
     exists i', infos s' !! l = Some i' /\ with_score 0 i' = with_score 0 i /\ 0 <= score i') ->
  Inv s'.
Proof.
  intros [Ha Hc Hi Hf Hk] Ea Ec El Hrel.
  assert (forall l, with_score 0 <$> info_at s' l = with_score 0 <$> info_at s l) as Hsame.
  { intros l. unfold info_at. destruct (infos s !! l) as [i|] eqn:E.
    - destruct (Hrel l i E) as (i' & -> & Hw & _). simpl. by rewrite Hw.
    - apply lookup_ge_None in E. rewrite <- El in E. apply lookup_ge_None in E.
      by rewrite E. }
  split.
  - intros a elems l. rewrite Ea, El. apply Ha.
  - intros k a. rewrite Ec, Ea. apply Hc.
  - intros k k' a. rewrite Ec. apply Hi.
  - intros l i' Hl.
    destruct (infos s !! l) as [i|] eqn:E.
    + destruct (Hrel l i E) as (i2 & Hi2 & Hw & Hs). rewrite Hl in Hi2. injection Hi2 as <-.
      destruct (Hf l i E) as (_ & Hd & Hm).
      pose proof (f_equal path Hw) as Ep. pose proof (f_equal directory Hw) as Ed.
      pose proof (f_equal isMonorepoRoot Hw) as Em.
      pose proof (f_equal workspaces Hw) as Ew. simpl in Ep, Ed, Em, Ew.
      unfold entry_ok. rewrite Ep, Ed, Em, Ew. done.
    + apply lookup_ge_None in E. apply lookup_lt_Some in Hl. lia.
  - intros p opts a. rewrite Ec. intros Hka.
    unfold elements_of. rewrite Ea.
    eapply cached_ok_transfer; [|by apply Hk]. intros l _. apply Hsame.
Qed.

(** Reordering of arrays in place. *)
Lemma Inv_permute s s' :
  Inv s -> infos s' = infos s -> cache s' = cache s ->
  length (arrays s') = length (arrays s) ->
  (forall a elems', arrays s' !! a = Some elems' ->
     exists elems, arrays s !! a = Some elems /\ elems' ≡ₚ elems) ->
  Inv s'.
Proof.
  intros [Ha Hc Hi Hf Hk] Ei Ec El Hrel. split.
  - intros a elems' l Hel Hl. rewrite Ei.
    destruct (Hrel a elems' Hel) as (elems & Hel0 & Hp).
    apply (Ha a elems l Hel0). by rewrite <- Hp.
  - intros k a. rewrite Ec, El. apply Hc.
  - intros k k' a. rewrite Ec. apply Hi.
  - intros l i. rewrite Ei. apply Hf.
  - intros p opts a. rewrite Ec. intros Hka.
    specialize (Hk p opts a Hka). specialize (Hc _ _ Hka).
    rewrite <- El in Hc. apply lookup_lt_is_Some in Hc as [elems' Hel].
    destruct (Hrel a elems' Hel) as (elems & Hel0 & Hp).
    rewrite (elements_of_lookup _ _ _ Hel). rewrite (elements_of_lookup _ _ _ Hel0) in Hk.
    eapply cached_ok_perm; [exact Hp|].
    eapply cached_ok_transfer; [|exact Hk].
    intros l _. unfold info_at. by rewrite Ei.
Qed.

(** A new array that no cache entry refers to. *)
Lemma Inv_alloc_array s elems :
  Inv s -> (forall l, l ∈ elems -> (l < length (infos s))%nat) ->
  Inv (set_arrays (fun h => h ++ [elems]) s).
Proof.
  intros [Ha Hc Hi Hf Hk] Hb. split; simpl.
  - intros a els l Hel Hl. apply lookup_app_Some in Hel as [Hel|[_ Hel]].
    + by eapply Ha.
    + apply list_lookup_singleton_Some in Hel as [_ <-]. by apply Hb.
  - intros k a Hka. rewrite length_app. specialize (Hc _ _ Hka). simpl. lia.
  - done.
  - done.
  - intros p opts a Hka. specialize (Hk p opts a Hka). specialize (Hc _ _ Hka).
    replace (elements_of (set_arrays (fun h => h ++ [elems]) s) a) with (elements_of s a).
    + eapply cached_ok_transfer; [|exact Hk]. done.
    + unfold elements_of. simpl. by rewrite lookup_app_l.
Qed.

(** A new object that no array refers to. *)
Lemma Inv_alloc_info s info :
  Inv s -> entry_ok info -> Inv (set_infos (fun h => h ++ [info]) s).
Proof.
  intros [Ha Hc Hi Hf Hk] Hok. split; simpl.
  - intros a els l Hel Hl. rewrite length_app. specialize (Ha _ _ _ Hel Hl). simpl. lia.
  - done.
  - done.
  - intros l i Hl. apply lookup_app_Some in Hl as [Hl|[_ Hl]].
    + by eapply Hf.
    + apply list_lookup_singleton_Some in Hl as [_ <-]. done.
  - intros p opts a Hka. specialize (Hk p opts a Hka).
    change (elements_of (set_infos (fun h => h ++ [info]) s) a) with (elements_of s a).
    eapply cached_ok_transfer; [|exact Hk].
    intros l Hl. apply elements_of_bound in Hl as (els & Hel & Hl).
    specialize (Ha _ _ _ Hel Hl). unfold info_at. simpl. by rewrite lookup_app_l.
Qed.

Lemma Inv_new folders : Inv (new_service folders).
Proof. split; simpl; intros; by simplify_map_eq. Qed.

Lemma Inv_clear s roots :
  Inv s -> Inv {| infos := infos s; arrays := arrays s; cache := ∅; workspaceRoots := roots |}.
Proof.
  intros [Ha Hc Hi Hf Hk]. split; simpl; try done; intros; by simplify_map_eq.
Qed.

Lemma fmap_lookup_seq {A} (h x : list A) :
  (fun l => (h ++ x) !! l) <$> seq (length h) (length x) = Some <$> x.
Proof.
  revert h. induction x as [|a x IH]; intros h; [done|].
  simpl. rewrite lookup_app_r, Nat.sub_diag by lia. simpl. f_equal.
  specialize (IH (h ++ [a])). rewrite length_app, <- app_assoc in IH. simpl in IH.
  by rewrite Nat.add_1_r in IH.
Qed.

Section FreshRun.
Context (root : node) (p : fspath) (opts : ResolvedOptions).
Context (new : list PackageJsonInfo) (s : State).

Let s' := fresh_run_state p opts new s.
Let r := length (arrays s).

Lemma fresh_info_old l : (l < length (infos s))%nat -> info_at s' l = info_at s l.
Proof. intros Hl. unfold info_at, s'. simpl. by rewrite lookup_app_l. Qed.

Lemma fresh_elements_old a : (a < length (arrays s))%nat -> elements_of s' a = elements_of s a.
Proof. intros Ha. unfold elements_of, s'. simpl. by rewrite lookup_app_l. Qed.

Lemma fresh_elements_new :
  elements_of s' r
  = sort_desc (score_in (infos s')) (seq (length (infos s)) (length new)).
Proof. unfold elements_of, s', r. simpl. by rewrite lookup_app_r, Nat.sub_diag by lia. Qed.

Lemma fresh_elements_perm : elements_of s' r ≡ₚ seq (length (infos s)) (length new).
Proof. rewrite fresh_elements_new. apply sort_desc_perm. Qed.

Lemma fresh_info_seq :
  info_at s' <$> seq (length (infos s)) (length new) = Some <$> scored p new.
Proof.
  unfold info_at, s'. simpl.
  pose proof (fmap_lookup_seq (infos s) (scored p new)) as H.
  unfold scored in H at 2. rewrite length_fmap in H. exact H.
Qed.

Lemma fresh_read : read_array s' r ≡ₚ scored p new.
Proof.
  unfold read_array. rewrite fresh_elements_perm.
  unfold info_at, s'. simpl.
  pose proof (omap_lookup_seq (infos s) (scored p new)) as H.
  unfold scored in H at 2. rewrite length_fmap in H. by rewrite H.
Qed.

Lemma scored_elem info :
  info ∈ scored p new ->
  exists info0, info0 ∈ new /\
    info = with_score (score_of (has_at_start p new) p info0) info0.
Proof.
  unfold scored. intros H. apply list_elem_of_fmap in H as (i0 & -> & Hi0). by exists i0.
Qed.

Lemma fresh_info_new l info :
  l ∈ seq (length (infos s)) (length new) -> info_at s' l = Some info ->
  info ∈ scored p new.
Proof.
  intros Hl Hi.
  assert (Some info ∈ info_at s' <$> seq (length (infos s)) (length new)) as H.
  { rewrite <- Hi. by apply list_elem_of_fmap_2. }
  rewrite fresh_info_seq in H.
  apply list_elem_of_fmap in H as (x & Hx & Hin). by injection Hx as ->.
Qed.

Context (v : gset fspath).
Context (Hpass : pass_ok root (workspaceRoots s) (run_geom p opts) ∅ v new).

Lemma pass_entry info :
  info ∈ new ->
  path info = join (directory info) package_json /\
  (0 <= maxDepthUp opts -> ancestor_or_self (directory info) p) /\
  (directory info = p -> distance info = 0) /\
  0 <= distance info /\
  score info = 0 /\
  isMonorepoRoot info = truthy_opt (workspaces info).
Proof.
  intros Hin. destruct Hpass as (_ & _ & Hall). rewrite Forall_forall in Hall.
  destruct (Hall _ Hin) as (d & dist & _ & _ & Hg & Hf).
  apply found_at_fields in Hf as (Hp & Hd & Hdist & Hs & Hm).
  rewrite Hp, Hd, Hdist. repeat split; try done.
  - intros Hup. destruct Hg as [(Hpre & _)|(Hneg & _)]; [done | lia].
  - intros ->. destruct Hg as [(_ & -> & _)|(_ & _ & -> & _)]; lia.
  - destruct Hg as [(Hpre & -> & _)|(_ & Hpre & -> & _)];
      apply prefix_length in Hpre; lia.
Qed.

Lemma fresh_cached_ok : cached_ok s' p opts (elements_of s' r).
Proof.
  eapply cached_ok_perm; [apply fresh_elements_perm|]. split.
  - replace (path_at s' <$> seq (length (infos s)) (length new))
      with (fmap path <$> (info_at s' <$> seq (length (infos s)) (length new)))
      by (by rewrite <- list_fmap_compose).
    rewrite fresh_info_seq, <- list_fmap_compose.
    replace ((fmap path ∘ Some) <$> scored p new) with (Some <$> (path <$> new)).
    + apply (NoDup_fmap_2 Some). by destruct Hpass as (_ & Hnd & _).
    + unfold scored. rewrite <- !list_fmap_compose. done.
  - intros l info Hl Hi.
    apply fresh_info_new in Hi; [|done].
    apply scored_elem in Hi as (i0 & Hi0 & ->). simpl.
    destruct (pass_entry i0 Hi0) as (H1 & H2 & H3 & _). done.
Qed.

Lemma Inv_fresh : Inv s -> Inv s'.
Proof.
  intros [Ha Hc Hi Hf Hk]. split.
  - intros a elems l Hel Hl. unfold s' in *. simpl in *.
    rewrite length_app. apply lookup_app_Some in Hel as [Hel|[_ Hel]].
    + specialize (Ha _ _ _ Hel Hl). lia.
    + apply list_lookup_singleton_Some in Hel as [_ <-].
      rewrite sort_desc_elem, elem_of_seq in Hl.
      unfold scored. rewrite length_fmap. lia.
  - intros k a Hka. unfold s' in *. simpl in *. rewrite length_app. simpl.
    destruct (cacheResults opts).
    + apply lookup_insert_Some in Hka as [[_ <-]|[_ Hka]]; [lia|].
      specialize (Hc _ _ Hka). lia.
    + specialize (Hc _ _ Hka). lia.
  - intros k k' a Hka Hka'. unfold s' in *. simpl in *.
    destruct (cacheResults opts); [|by eapply Hi].
    apply lookup_insert_Some in Hka as [[<- <-]|[_ Hka]];
      apply lookup_insert_Some in Hka' as [[<- E]|[_ Hka']]; try done.
    + specialize (Hc _ _ Hka'). lia.
    + specialize (Hc _ _ Hka). lia.
    + by eapply Hi.
  - intros l info Hl. unfold s' in Hl. simpl in Hl.
    apply lookup_app_Some in Hl as [Hl|[_ Hl]]; [by eapply Hf|].
    apply list_elem_of_lookup_2, scored_elem in Hl as (i0 & Hi0 & ->).
    destruct (pass_entry i0 Hi0) as (H1 & _ & _ & _ & _ & H6).
    split; [apply score_of_nonneg|]. simpl. split; [|done].
    rewrite H1 at 1. by rewrite dirname_join.
  - intros p' opts' a Hka.
    assert (a = r /\ p' = p /\ opts' = opts \/
            (a < length (arrays s))%nat /\ cache s !! (p', opts') = Some a) as Hcase.
    { unfold s' in Hka. simpl in Hka. destruct (cacheResults opts).
      - apply lookup_insert_Some in Hka as [[E <-]|[_ Hka]].
        + left. unfold cacheKey in E. by injection E as <- <-.
        + right. split; [by eapply Hc | done].
      - right. split; [by eapply Hc | done]. }
    destruct Hcase as [(-> & -> & ->)|[Hlt Hka0]]; [apply fresh_cached_ok|].
    rewrite fresh_elements_old by done.
    eapply cached_ok_transfer; [|by apply Hk].
    intros l Hl. apply elements_of_bound in Hl as (els & Hel & Hl).
    rewrite fresh_info_old; [done|]. by eapply Ha.
Qed.
End FreshRun.

Lemma resolve_as_options opts : resolve (as_options opts) = opts.
Proof. by destruct opts. Qed.

Section DiscoverPost.
Context (root : node).

Lemma discover_post p options s a s' :
  Inv s -> discoverPackageJsonFiles root p options s = (a, s') ->
  Inv s' /\
  cached_ok s' p (resolve options) (elements_of s' a) /\
  (a < length (arrays s'))%nat /\
  (forall k, cache s' !! k = Some a -> k = cacheKey p (resolve options)) /\
  workspaceRoots s' = workspaceRoots s /\
  (length (infos s) <= length (infos s'))%nat.
Proof.
  intros HI E.
  destruct (if cacheResults (resolve options)
            then cache s !! cacheKey p (resolve options) else None) as [c|] eqn:Hc.
  - destruct (cacheResults (resolve options)) eqn:Hcr; [|done].
    rewrite (discover_hit root p options c s Hcr Hc) in E. injection E as <- <-.
    pose proof HI as [Ha Hbound Hi Hf Hk].
    split; [done|]. split; [by apply Hk|]. split; [by eapply Hbound|].
    split; [|done]. intros k Hk'. by eapply Hi.
  - destruct (discover_miss root p options s Hc) as (v & new & E' & P).
    rewrite E' in E. injection E as <- <-.
    split; [by eapply Inv_fresh|]. split; [by eapply fresh_cached_ok|].
    split; [simpl; rewrite length_app; simpl; lia|]. split; [|split].
    + intros k Hk. unfold fresh_run_state in Hk. cbn [cache] in Hk.
      destruct (cacheResults (resolve options)).
      * apply lookup_insert_Some in Hk as [[<- _]|[_ Hk]]; [done|].
        apply (inv_cache _ HI) in Hk. lia.
      * apply (inv_cache _ HI) in Hk. lia.
    + done.
    + simpl. rewrite length_app. lia.
Qed.
End DiscoverPost.

Lemma Inv_rescore has p elems s : Inv s -> Inv (set_infos (rescore has p elems) s).
Proof.
  intros HI. eapply Inv_scores; [exact HI | done | done | |]; simpl.
  - apply rescore_length.
  - intros l i Hl. rewrite rescore_lookup, Hl. simpl.
    case_bool_decide.
    + eexists. split; [done|]. split; [done|]. simpl. apply score_of_nonneg.
    + exists i. split; [done|]. split; [done|]. by destruct (inv_infos _ HI l i Hl).
Qed.

Lemma Inv_sort (key : loc -> Z) a s :
  Inv s -> Inv (set_arrays (alter (sort_desc key) a) s).
Proof.
  intros HI. eapply Inv_permute; [exact HI | done | done | |]; simpl.
  - apply length_alter.
  - intros a' elems' Hel. rewrite list_lookup_alter in Hel. case_decide as Ha.
    + subst a'. destruct (arrays s !! a) as [elems|]; simpl in Hel; [|done].
      injection Hel as <-. exists elems. split; [done | apply sort_desc_perm].
    + by exists elems'.
Qed.

Lemma cached_ok_app s p opts l1 l2 :
  cached_ok s p opts l1 -> cached_ok s p opts l2 ->
  (forall x y, x ∈ l1 -> y ∈ l2 -> path_at s x <> path_at s y) ->
  cached_ok s p opts (l1 ++ l2).
Proof.
  intros (N1 & A1) (N2 & A2) Hdis. split.
  - rewrite fmap_app. apply NoDup_app. split; [done|]. split; [|done].
    intros q Hq1 Hq2.
    apply list_elem_of_fmap in Hq1 as (x & -> & Hx).
    apply list_elem_of_fmap in Hq2 as (y & Heq & Hy).
    by apply (Hdis x y).
  - intros l i Hl. apply elem_of_app in Hl as [Hl|Hl]; [by apply A1 | by apply A2].
Qed.

Lemma Inv_push s a extra p opts :
  Inv s -> (a < length (arrays s))%nat ->
  (forall k, cache s !! k = Some a -> k = cacheKey p opts) ->
  (forall l, l ∈ extra -> (l < length (infos s))%nat) ->
  (cache s !! cacheKey p opts = Some a -> cached_ok s p opts (elements_of s a ++ extra)) ->
  Inv (set_arrays (alter (fun elems => elems ++ extra) a) s).
Proof.
  intros HI Hlt Huniq Hextra Hok. pose proof HI as [Ha Hc Hi Hf Hk].
  split; simpl.
  - intros a' elems' l Hel Hl. rewrite list_lookup_alter in Hel. case_decide as Ea.
    + subst a'. destruct (arrays s !! a) as [elems|] eqn:E; simpl in Hel; [|done].
      injection Hel as <-. apply elem_of_app in Hl as [Hl|Hl]; [by eapply Ha | by apply Hextra].
    + by eapply Ha.
  - intros k a' Hka. rewrite length_alter. by eapply Hc.
  - done.
  - done.
  - intros p' opts' a' Hka.
    destruct (decide (a' = a)) as [->|Hne].
    + pose proof (Huniq _ Hka) as E. unfold cacheKey in E. injection E as -> ->.
      replace (elements_of (set_arrays (alter (fun elems => elems ++ extra) a) s) a)
        with (elements_of s a ++ extra).
      * eapply cached_ok_transfer; [|by apply Hok]. done.
      * unfold elements_of. simpl. rewrite list_lookup_alter_eq.
        apply lookup_lt_is_Some in Hlt as [elems ->]. done.
    + replace (elements_of (set_arrays (alter (fun elems => elems ++ extra) a) s) a')
        with (elements_of s a').
      * eapply cached_ok_transfer; [|by apply Hk]. done.
      * unfold elements_of. simpl. by rewrite list_lookup_alter_ne.
Qed.

Lemma start_entries root roots p opts v new info :
  maxDepthUp opts = 0 ->
  pass_ok root roots (run_geom p opts) ∅ v new -> info ∈ new ->
  directory info = p /\ distance info = 0 /\ path info = join p package_json.
Proof.
  intros Hup (_ & _ & Hall) Hin. rewrite Forall_forall in Hall.
  destruct (Hall _ Hin) as (d & dist & _ & _ & Hg & Hf).
  apply found_at_fields in Hf as (Hp & Hd & Hdist & _).
  destruct Hg as [(Hpre & Hdist' & Hmax)|(Hneg & _)]; [|lia].
  assert (d = p) as ->.
  { apply prefix_same_length; [done|]. apply prefix_length in Hpre. lia. }
  rewrite Hp, Hd, Hdist. split; [done|]. split; [lia | done].
Qed.

Section GetBest.
Context (root : node).

(** The state in which [getBestPackageJson] ends: that of the discovery
    when no probe is made; otherwise the probe's entries are pushed on the
    discovered array (state [s3]), which is then re-scored and sorted. *)
Lemma getBest_run p options s :
  Inv s ->
  let opts := resolve options in
  exists results s1,
    discoverPackageJsonFiles root p (as_options opts) s = (results, s1) /\
    Inv s1 /\
    (probes p opts s1 results = false /\
     getBestPackageJson root p options s = (head (elements_of s1 results), s1)
     \/
     probes p opts s1 results = true /\
     exists s3,
       Inv s3 /\ (results < length (arrays s3))%nat /\
       cached_ok s3 p opts (elements_of s3 results) /\
       let s4 := set_infos (rescore (has_at_start p (read_array s3 results)) p
                              (elements_of s3 results)) s3 in
       let s5 := set_arrays (alter (sort_desc (score_at s4)) results) s4 in
       getBestPackageJson root p options s = (head (elements_of s5 results), s5)).
Proof.
  intros HI opts. unfold getBestPackageJson. fold opts. run_m.
  destruct (discoverPackageJsonFiles root p (as_options opts) s) as [results s1] eqn:E1.
  exists results, s1. split; [done|].
  apply discover_post in E1 as (I1 & C1 & B1 & U1 & R1 & L1); [|done].
  rewrite resolve_as_options in C1, U1. split; [done|].
  fold (probes p opts s1 results).
  destruct (probes p opts s1 results) eqn:Hb; [right | by left].
  split; [done|].
  unfold probes in Hb. apply andb_true_iff in Hb as [Hhas _].
  apply negb_true_iff in Hhas.
  match goal with
  | |- context [discoverPackageJsonFiles root p ?c s1] =>
      destruct (discover_miss root p c s1) as (v & newc & E2 & P2); [done|];
      set (copts := resolve c) in *
  end.
  rewrite E2. unfold push. rewrite calculateScores_run. unfold sort_by_score. simpl.
  set (s2 := fresh_run_state p copts newc s1).
  assert (Inv s2) as I2 by (by eapply Inv_fresh).
  assert (forall l info, l ∈ elements_of s2 (length (arrays s1)) ->
            info_at s2 l = Some info ->
            directory info = p /\ distance info = 0 /\ path info = join p package_json)
    as Hchild.
  { intros l info Hl Hi. unfold s2 in Hl. rewrite fresh_elements_perm in Hl.
    apply fresh_info_new in Hi; [|done].
    apply scored_elem in Hi as (i0 & Hi0 & ->). simpl.
    by eapply (start_entries root _ p copts v newc). }
  assert (elements_of s2 results = elements_of s1 results) as Eel
    by (by apply fresh_elements_old).
  assert ((results < length (arrays s2))%nat) as B2.
  { unfold s2. simpl. rewrite length_app. lia. }
  assert (cached_ok s2 p opts
            (elements_of s2 results ++ elements_of s2 (length (arrays s1)))) as Hok.
  { apply cached_ok_app.
    - rewrite Eel. eapply cached_ok_transfer; [|exact C1].
      intros l Hl. apply elements_of_bound in Hl as (els & Hel & Hl).
      unfold s2. rewrite fresh_info_old; [done|]. by eapply (inv_arrays _ I1).
    - pose proof (fresh_cached_ok root p copts newc s1 v P2) as (Hnd & _).
      split; [exact Hnd|].
      intros l info Hl Hi. destruct (Hchild l info Hl Hi) as (Hd & Hz & Hp).
      rewrite Hd, Hz, Hp. done.
    - intros x y Hx Hy Heq.
      rewrite Eel in Hx.
      apply elements_of_bound in Hx as (els & Hel & Hx').
      pose proof (inv_arrays _ I1 _ _ _ Hel Hx') as Hxlt.
      apply lookup_lt_is_Some in Hxlt as [ix Hix].
      assert (info_at s2 x = Some ix) as Hix2.
      { unfold s2. rewrite fresh_info_old; [done|]. by eapply lookup_lt_Some. }
      unfold path_at in Heq. rewrite Hix2 in Heq. simpl in Heq.
      destruct (info_at s2 y) as [iy|] eqn:Hiy; simpl in Heq; [|done].
      injection Heq as Heq.
      destruct (Hchild y iy Hy Hiy) as (_ & _ & Hpy).
      destruct (inv_infos _ I1 x ix Hix) as (_ & Hdx & _).
      assert (directory ix = p) as Hdp.
      { rewrite Hdx, Heq, Hpy. apply dirname_join. }
      assert (existsb (fun info => bool_decide (directory info = p))
                (read_array s1 results) = true) as Habs; [|congruence].
      apply existsb_exists. exists ix. split.
      * apply list_elem_of_In. unfold read_array. apply list_elem_of_omap.
        exists x. split; [|done]. unfold elements_of. by rewrite Hel.
      * by apply bool_decide_eq_true_2. }
  set (s3 := set_arrays (alter (fun elems => elems ++ elements_of s2 (length (arrays s1)))
                           results) s2).
  assert (elements_of s3 results
          = elements_of s2 results ++ elements_of s2 (length (arrays s1))) as Eel3.
  { apply lookup_lt_is_Some in B2 as [elems Hel2].
    unfold s3, elements_of. cbn [arrays set_arrays].
    rewrite list_lookup_alter_eq, Hel2. done. }
  exists s3. split; [|split; [|split]].
  - apply (Inv_push s2 results _ p opts); [done | done | | | done].
    + intros k Hk. apply U1. exact Hk.
    + intros l Hl. apply elements_of_bound in Hl as (els & Hel & Hl).
      by eapply (inv_arrays _ I2).
  - unfold s3. simpl. by rewrite length_alter.
  - rewrite Eel3. eapply cached_ok_transfer; [|exact Hok]. done.
  - done.
Qed.

Lemma getBest_Inv p options s :
  Inv s -> Inv (getBestPackageJson root p options s).2.
Proof.
  intros HI.
  destruct (getBest_run p options s HI)
    as (results & s1 & _ & I1 & [[_ ->]|(_ & s3 & I3 & _ & _ & ->)]); [done|].
  simpl. by apply Inv_sort, Inv_rescore.
Qed.
End GetBest.

Lemma scores_only_refl s : scores_only s s.
Proof. repeat split; try done. intros l i Hl. exists i. repeat split; [done | lia]. Qed.

Lemma scores_only_trans s1 s2 s3 :
  scores_only s1 s2 -> scores_only s2 s3 -> scores_only s1 s3.
Proof.
  intros (A1 & C1 & R1 & L1 & H1) (A2 & C2 & R2 & L2 & H2).
  repeat split; try congruence.
  intros l i Hl. destruct (H1 l i Hl) as (i2 & Hi2 & W2 & S2).
  destruct (H2 l i2 Hi2) as (i3 & Hi3 & W3 & S3).
  exists i3. split; [done|]. split; [congruence | lia].
Qed.

Lemma Inv_scores_only s s' : Inv s -> scores_only s s' -> Inv s'.
Proof.
  intros HI (A & C & R & L & H). eapply Inv_scores; [exact HI | done | done | done |].
  intros l i Hl. destruct (H l i Hl) as (i' & Hi' & W & S).
  exists i'. split; [done|]. split; [done|].
  destruct (inv_infos _ HI l i Hl) as (H0 & _). lia.
Qed.

Lemma bump_score_scores_only l s : scores_only s (bump_score l s).2.
Proof.
  unfold bump_score. run_m. unfold info_at.
  destruct (infos s !! l) as [pkg|] eqn:E; [|apply scores_only_refl].
  destruct (isWorkspaceRoot pkg); [|apply scores_only_refl].
  unfold write_score. simpl. repeat split; simpl; try done.
  - apply length_alter.
  - intros l' i Hl. rewrite list_lookup_alter. case_decide as Hd.
    + subst l'. rewrite E. simpl. eexists. split; [done|].
      rewrite E in Hl. injection Hl as <-. split; [done|]. simpl. lia.
    + exists i. repeat split; [done | lia].
Qed.

Lemma bump_loop elems : forall s,
  exists s', for_of elems (fun l (_ : unit) => bump_score l) tt s = (tt, s') /\
             scores_only s s'.
Proof.
  induction elems as [|l elems IH]; intros s.
  - exists s. split; [done | apply scores_only_refl].
  - simpl. run_m. pose proof (bump_score_scores_only l s) as H1.
    destruct (bump_score l s) as [[] s1]. simpl in H1.
    destruct (IH s1) as (s' & E & H2). exists s'. split; [done|].
    by eapply scores_only_trans.
Qed.

Section Analyze.
Context (root : node).

(** What [filterRelevantPackageJsons] does to the state. *)
Lemma filterRelevant_run all cp prioritize s :
  exists s1,
    scores_only s s1 /\
    (prioritize = false -> s1 = s) /\
    (for_of (elements_of s all) (fun l (_ : unit) => bump_score l) tt s = (tt, s1)
     \/ prioritize = false) /\
    filterRelevantPackageJsons all cp prioritize s
    = (length (arrays s1),
       set_arrays (fun h => h ++ [sort_desc (score_at s1)
                                    (filter (fun l => holds_at s1 is_relevant l)
                                       (elements_of s all))]) s1).
Proof.
  unfold filterRelevantPackageJsons. run_m. destruct prioritize.
  - destruct (bump_loop (elements_of s all) s) as (s1 & E & H).
    exists s1. rewrite E. split; [done|]. split; [done|]. split; [by left | done].
  - exists s. split; [apply scores_only_refl|]. split; [done|]. split; [by right | done].
Qed.

Lemma analyze_Inv cp options s :
  Inv s -> Inv (analyzeProjectContext root cp options s).2.
Proof.
  intros HI. unfold analyzeProjectContext. run_m.
  match goal with
  | |- context [discoverPackageJsonFiles root cp ?o s] =>
      destruct (discoverPackageJsonFiles root cp o s) as [all s1] eqn:E1
  end.
  apply discover_post in E1 as (I1 & _ & B1 & _ & _ & _); [|done].
  unfold getWorkspaceRoot. run_m.
  match goal with
  | |- context [filterRelevantPackageJsons all cp ?b s1] =>
      destruct (filterRelevant_run all cp b s1) as (s2 & Hso & _ & _ & E2)
  end.
  rewrite E2. simpl.
  apply Inv_alloc_array; [by eapply Inv_scores_only|].
  intros l Hl. rewrite sort_desc_elem in Hl. apply list_elem_of_filter in Hl as [_ Hl].
  apply elements_of_bound in Hl as (els & Hel & Hl).
  destruct Hso as (_ & _ & _ & -> & _). by eapply (inv_arrays _ I1).
Qed.
End Analyze.

(** ** De-duplication by first index *)

Section FilterFirst.
Context {A B : Type} `{EqDecision B} (k : A -> B).

Let same (other item : A) : bool := bool_decide (k other = k item).

Lemma findIndex_app_l (pred : A -> bool) pre rest y :
  y ∈ pre -> pred y = true ->
  exists i, findIndex pred (pre ++ rest) = Some i /\ (i < length pre)%nat.
Proof.
  induction pre as [|x pre IH]; intros Hy Hp; [by apply elem_of_nil in Hy|].
  simpl. destruct (pred x) eqn:Ex.
  - exists 0%nat. split; [done | lia].
  - apply elem_of_cons in Hy as [->|Hy]; [congruence|].
    destruct (IH Hy Hp) as (i & -> & Hi). exists (S i). split; [done | lia].
Qed.

Lemma filter_first_aux whole : forall rest pre,
  whole = pre ++ rest ->
  let kept :=
    omap (fun '(index, item) =>
            if bool_decide (findIndex (fun other => same other item) whole = Some index)
            then Some item else None)
         (imap (fun i x => ((length pre + i)%nat, x)) rest) in
  NoDup (k <$> kept) /\
  forall x, x ∈ kept -> (x ∈ rest) /\ (k x ∉ (k <$> pre)).
Proof.
  induction rest as [|x rest IH]; intros pre Hw; simpl.
  { split; [constructor|]. intros x Hx. by apply elem_of_nil in Hx. }
  assert (whole = (pre ++ [x]) ++ rest) as Hw' by (by rewrite <- app_assoc).
  destruct (IH (pre ++ [x]) Hw') as (Hnd & Hin). clear IH.
  assert (imap ((fun i y => ((length pre + i)%nat, y)) ∘ S) rest
          = imap (fun i y => ((length (pre ++ [x]) + i)%nat, y)) rest) as Himap.
  { apply imap_ext. intros i y _. simpl. rewrite length_app. simpl. f_equal. lia. }
  rewrite Himap. rewrite Nat.add_0_r.
  set (kept := omap _ (imap _ rest)) in *.
  assert (forall y, y ∈ kept ->
            (y ∈ x :: rest) /\ (k y ∉ (k <$> pre)) /\ k y <> k x) as Hin'.
  { intros y Hy. destruct (Hin y Hy) as [Hr Hk]. split; [by right|].
    rewrite fmap_app in Hk. set_solver. }
  case_bool_decide as Hfi.
  - simpl. split.
    + constructor; [|done]. intros Hx.
      apply list_elem_of_fmap in Hx as (y & Heq & Hy).
      destruct (Hin' y Hy) as (_ & _ & Hne). congruence.
    + intros y Hy. apply elem_of_cons in Hy as [->|Hy].
      * split; [left|]. intros Hx.
        apply list_elem_of_fmap in Hx as (y & Heq & Hy).
        destruct (findIndex_app_l (fun other => same other x) pre (x :: rest) y Hy)
          as (i & Ei & Hlt).
        { unfold same. apply bool_decide_eq_true_2. done. }
        rewrite Hw, Ei in Hfi. injection Hfi as ->. lia.
      * destruct (Hin' y Hy) as (H1 & H2 & _). done.
  - split; [done|]. intros y Hy. destruct (Hin' y Hy) as (H1 & H2 & _). done.
Qed.

Lemma filter_first_NoDup arr : NoDup (k <$> filter_first same arr).
Proof.
  pose proof (filter_first_aux arr arr [] eq_refl) as [H _]. exact H.
Qed.

Lemma filter_first_elem arr x : x ∈ filter_first same arr -> x ∈ arr.
Proof.
  pose proof (filter_first_aux arr arr [] eq_refl) as [_ H].
  intros Hx. by destruct (H x Hx).
Qed.
End FilterFirst.

Section WorkspaceFiles.
Context (root : node).

Lemma workspace_loop (options : DiscoveryOptions) roots : forall acc s,
  Inv s -> (forall l, l ∈ acc -> (l < length (infos s))%nat) ->
  exists acc' s',
    for_of roots (fun workspaceRoot allResults =>
        results ← discoverPackageJsonFiles root workspaceRoot options;
        s ← get_state;
        mret (allResults ++ elements_of s results)) acc s = (acc', s') /\
    Inv s' /\ (forall l, l ∈ acc' -> (l < length (infos s'))%nat).
Proof.
  induction roots as [|w roots IH]; intros acc s HI Hacc.
  - exists acc, s. done.
  - simpl. run_m.
    destruct (discoverPackageJsonFiles root w options s) as [results s1] eqn:E1.
    apply discover_post in E1 as (I1 & _ & _ & _ & _ & L1); [|done].
    destruct (IH (acc ++ elements_of s1 results) s1 I1) as (acc' & s' & E & HI' & Hacc').
    { intros l Hl. apply elem_of_app in Hl as [Hl|Hl].
      - specialize (Hacc l Hl). lia.
      - apply elements_of_bound in Hl as (els & Hel & Hl). by eapply (inv_arrays _ I1). }
    exists acc', s'. done.
Qed.

(** The state and the result of [getWorkspacePackageJsonFiles]: a new
    array holding the first occurrence of every path. *)
Lemma getWorkspace_run s :
  Inv s ->
  exists all s1,
    Inv s1 /\ (forall l, l ∈ all -> (l < length (infos s1))%nat) /\
    getWorkspacePackageJsonFiles root s
    = (length (arrays s1),
       set_arrays (fun h => h ++ [sort_desc (score_at s1)
         (filter_first (fun other item => bool_decide (path_at s1 other = path_at s1 item))
            all)]) s1).
Proof.
  intros HI. unfold getWorkspacePackageJsonFiles. run_m.
  destruct (workspace_loop
              {| o_maxDepthUp := Some 0; o_maxDepthDown := Some 10;
                 o_includeNodeModules := None; o_workspaceRootsOnly := None;
                 o_cacheResults := None |} (workspaceRoots s) [] s HI)
    as (all & s1 & E & I1 & Hall).
  { intros l Hl. by apply elem_of_nil in Hl. }
  run_m. exists all, s1. split; [done|]. split; [done|]. by rewrite E.
Qed.

Lemma getWorkspace_Inv s : Inv s -> Inv (getWorkspacePackageJsonFiles root s).2.
Proof.
  intros HI. destruct (getWorkspace_run s HI) as (all & s1 & I1 & Hall & ->). simpl.
  apply Inv_alloc_array; [done|].
  intros l Hl. rewrite sort_desc_elem in Hl. apply filter_first_elem in Hl. by apply Hall.
Qed.
End WorkspaceFiles.

Lemma parse_Inv root p d s : Inv s -> Inv (parsePackageJson root p d s).2.
Proof.
  intros HI. rewrite parsePackageJson_run.
  destruct (parsePackageJson_try root (workspaceRoots s) p d) as [info|e] eqn:E; [|done].
  simpl. apply Inv_alloc_info; [done|].
  apply parse_try_fields in E as (j & _ & _ & Hp & Hd & _ & _ & _ & _ & Hm & Hw & _ & Hs).
  unfold entry_ok. rewrite Hs, Hd, Hp, Hm, Hw. done.
Qed.

Lemma run_Inv op s : Inv s -> Inv (run op s).
Proof.
  intros HI. destruct op; simpl.
  - destruct (discoverPackageJsonFiles root startPath options s) as [a s'] eqn:E.
    by apply discover_post in E as (I1 & _).
  - by apply getBest_Inv.
  - by apply getWorkspace_Inv.
  - by apply parse_Inv.
  - exact (Inv_clear s (workspaceRoots s) HI).
  - exact (Inv_clear s folders HI).
  - by apply analyze_Inv.
Qed.

Lemma reachable_Inv s : reachable s -> Inv s.
Proof. induction 1 as [folders|op s _ IH]; [apply Inv_new | by apply run_Inv]. Qed.

(** * The claims *)

(** ** Project-type classification *)

Lemma analyze_type root cp options s :
  let '(context, s') := analyzeProjectContext root cp options s in
  type context
  = detectProjectType (read_array s' (relevantPackageJsons context)) (workspaceRoot context).
Proof.
  unfold analyzeProjectContext. run_m.
  destruct (discoverPackageJsonFiles _ _ _ _) as [all s1].
  unfold getWorkspaceRoot. run_m.
  destruct (filterRelevantPackageJsons _ _ _ _) as [rel s2]. done.
Qed.

(** C6. Classification evaluates its rules in order, first match wins:
    [monorepo] iff some relevant manifest is a monorepo root; otherwise
    [workspace] iff more than one manifest remains and one of them is a
    workspace root; otherwise [nested] iff more than one remains (none being
    a workspace root); otherwise [single_package] (at most one manifest).
    [analyzeProjectContext] classifies the relevant list it returns by this
    function. *)
Theorem detectProjectType_rules (packageJsons : list PackageJsonInfo) (wsRoot : fspath) :
  let some_monorepo := exists pkg, pkg ∈ packageJsons /\ isMonorepoRoot pkg = true in
  let some_wsroot := exists pkg, pkg ∈ packageJsons /\ isWorkspaceRoot pkg = true in
  (detectProjectType packageJsons wsRoot = monorepo <-> some_monorepo) /\
  (detectProjectType packageJsons wsRoot = workspace <->
     ~ some_monorepo /\ (1 < length packageJsons)%nat /\ some_wsroot) /\
  (detectProjectType packageJsons wsRoot = nested <->
     ~ some_monorepo /\ (1 < length packageJsons)%nat /\ ~ some_wsroot) /\
  (detectProjectType packageJsons wsRoot = single_package <->
     ~ some_monorepo /\ (length packageJsons <= 1)%nat) /\
  (forall root cp options s,
     let '(context, s') := analyzeProjectContext root cp options s in
     type context
     = detectProjectType (read_array s' (relevantPackageJsons context))
         (workspaceRoot context)).
Proof.
  intros some_monorepo some_wsroot.
  assert (existsb isMonorepoRoot packageJsons = true <-> some_monorepo) as Hm.
  { rewrite existsb_exists. unfold some_monorepo.
    split; intros (pkg & H1 & H2); exists pkg; by rewrite ?list_elem_of_In in *. }
  assert (existsb isWorkspaceRoot packageJsons = true <-> some_wsroot) as Hw.
  { rewrite existsb_exists. unfold some_wsroot.
    split; intros (pkg & H1 & H2); exists pkg; by rewrite ?list_elem_of_In in *. }
  assert (forall b P, (b = true <-> P) -> b = false -> ~ P) as Hneg.
  { intros b P Hb -> HP. apply Hb in HP. done. }
  unfold detectProjectType.
  destruct (existsb isMonorepoRoot packageJsons) eqn:Em.
  { assert some_monorepo by (by apply Hm).
    repeat split; try done; try (by intros (? & _)). apply analyze_type. }
  pose proof (Hneg _ _ Hm eq_refl) as Hnm.
  destruct (Nat.ltb_spec 1 (length packageJsons)) as [Hlen|Hlen].
  - destruct (existsb isWorkspaceRoot packageJsons) eqn:Ew.
    + assert some_wsroot by (by apply Hw).
      repeat split; try done; try (by intros (? & ? & ?)); try (intros (? & ?); lia);
        try (by intros ?).
      apply analyze_type.
    + pose proof (Hneg _ _ Hw eq_refl) as Hnw.
      repeat split; try done; try (by intros (? & ? & ?)); try (intros (? & ?); lia);
        try (by intros ?).
      apply analyze_type.
  - repeat split; try done; try (intros (? & ? & ?); lia); try (by intros ?).
    apply analyze_type.
Qed.

(** ** The auto-selection decision *)

Lemma exceeds_one_and_a_half_spec first second :
  exceeds_one_and_a_half first second = true
  <-> (inject_Z second * 1.5 < inject_Z first)%Q.
Proof.
  unfold exceeds_one_and_a_half. rewrite negb_true_iff.
  split.
  - intros H. apply Qnot_le_lt. intros Hle. apply Qle_bool_iff in Hle. congruence.
  - intros H. destruct (Qle_bool _ _) eqn:E; [|done].
    apply Qle_bool_iff in E. apply Qlt_not_le in H. done.
Qed.

Lemma analyze_relevant_sorted root cp options s :
  let '(context, s') := analyzeProjectContext root cp options s in
  descending (score_at s') (elements_of s' (relevantPackageJsons context)).
Proof.
  unfold analyzeProjectContext. run_m.
  destruct (discoverPackageJsonFiles _ _ _ _) as [all s1].
  unfold getWorkspaceRoot. run_m.
  match goal with
  | |- context [filterRelevantPackageJsons all cp ?b s1] =>
      destruct (filterRelevant_run all cp b s1) as (s2 & _ & _ & _ & ->)
  end.
  simpl. rewrite elements_of_snoc. apply sort_desc_descending.
Qed.

(** C5. [shouldUseSpecificPackageJson] returns a manifest if and only if
    either exactly one relevant manifest exists (and it is that one) or the
    first relevant manifest's score strictly exceeds 1.5 times the score of
    the second; the relevant list is sorted by descending score, so these are
    the top-scored and the second-best.  With scores 100 and 50 the first is
    returned, with 100 and 80 nothing is. *)
Theorem shouldUseSpecificPackageJson_decision (root : node) (cp : fspath) (s : State) :
  let '(result, s') := shouldUseSpecificPackageJson root cp s in
  let '(context, s'') := analyzeProjectContext root cp no_detection_options s in
  let relevant := elements_of s' (relevantPackageJsons context) in
  s' = s'' /\
  descending (score_at s') relevant /\
  (forall m, result = Some m <->
     relevant = [m] \/
     exists second rest,
       relevant = m :: second :: rest /\
       (inject_Z (score_at s' second) * 1.5 < inject_Z (score_at s' m))%Q) /\
  (forall a b, relevant = [a; b] -> score_at s' a = 100 -> score_at s' b = 50 ->
     result = Some a) /\
  (forall a b, relevant = [a; b] -> score_at s' a = 100 -> score_at s' b = 80 ->
     result = None).
Proof.
  unfold shouldUseSpecificPackageJson. run_m.
  pose proof (analyze_relevant_sorted root cp no_detection_options s) as Hsorted.
  destruct (analyzeProjectContext root cp no_detection_options s) as [context s1].
  set (relevant := elements_of s1 (relevantPackageJsons context)) in *.
  assert (forall (result : option loc) (s' : State),
    (match relevant with
     | [] => (None, s1)
     | [only] => (Some only, s1)
     | first :: second :: _ =>
         if exceeds_one_and_a_half (score_at s1 first) (score_at s1 second)
         then (Some first, s1) else (None, s1)
     end) = (result, s') ->
    s' = s1 /\
    (forall m, result = Some m <->
       relevant = [m] \/
       exists second rest,
         relevant = m :: second :: rest /\
         (inject_Z (score_at s1 second) * 1.5 < inject_Z (score_at s1 m))%Q)) as Hdec.
  { intros result s'. destruct relevant as [|first [|second rest]].
    - intros [= <- <-]. split; [done|]. intros m. split; [done|].
      intros [H|(? & ? & H & _)]; done.
    - intros [= <- <-]. split; [done|]. intros m. split.
      + intros [= ->]. by left.
      + intros [[= ->]|(? & ? & H & _)]; done.
    - destruct (exceeds_one_and_a_half _ _) eqn:E.
      + intros [= <- <-]. split; [done|]. intros m. split.
        * intros [= ->]. right. exists second, rest. split; [done|].
          by apply exceeds_one_and_a_half_spec.
        * intros [H|(? & ? & [= -> _ _] & _)]; done.
      + intros [= <- <-]. split; [done|]. intros m. split; [done|].
        intros [H|(? & ? & [= -> -> _] & H)]; [done|].
        apply exceeds_one_and_a_half_spec in H. congruence. }
  match goal with
  | |- let '(result, s') := ?x in _ => destruct x as [result s'] eqn:E
  end.
  assert ((match relevant with
           | [] => (None, s1)
           | [only] => (Some only, s1)
           | first :: second :: _ =>
               if exceeds_one_and_a_half (score_at s1 first) (score_at s1 second)
               then (Some first, s1) else (None, s1)
           end) = (result, s')) as E'.
  { rewrite <- E. unfold relevant. by repeat case_match. }
  destruct (Hdec result s' E') as (-> & Hiff). clear Hdec E E'. subst relevant.
  split; [done|]. split; [done|]. split; [done|]. split.
  - intros a b Hrel Ha Hb. apply Hiff. right. exists b, []. split; [done|].
    rewrite Ha, Hb. by vm_compute.
  - intros a b Hrel Ha Hb. destruct result as [m|]; [|done].
    destruct (proj1 (Hiff m) eq_refl) as [H|(second & rest & H & Hlt)];
      rewrite Hrel in H; [done|].
    injection H as <- <- <-. rewrite Ha, Hb in Hlt. by vm_compute in Hlt.
Qed.

(** ** Cached results *)



(** ** Parse failures *)

(** C10. [parsePackageJson] never raises: whatever is thrown inside its [try]
    block becomes an absent result and leaves the service state untouched.
    In particular it is absent for a missing file, a file that cannot be
    read and a file whose text is not valid JSON.  The manifest check of the
    search passes then pushes nothing, so the scan goes on without the
    entry, and every entry of a discovery run comes from a manifest that was
    read and parsed. *)
Theorem parsePackageJson_swallows_failures (root : node) (p : fspath) (d : Z) (s : State) :
  (forall e, parsePackageJson_try root (workspaceRoots s) p d = Throw e ->
     parsePackageJson root p d s = (None, s)) /\
  (lookup_node root p = None -> parsePackageJson root p d s = (None, s)) /\
  (forall e, fs.readFile root p = Throw e -> parsePackageJson root p d s = (None, s)) /\
  (forall t, fs.readFile root p = Ok t -> (exists e, JSON_parse t = Throw e) ->
     parsePackageJson root p d s = (None, s)) /\
  (forall cur results,
     p = join cur package_json ->
     (exists e, parsePackageJson_try root (workspaceRoots s) p d = Throw e) ->
     check_manifest root cur results d s = (tt, s)) /\
  (forall options,
     (if cacheResults (resolve options)
      then cache s !! cacheKey p (resolve options) else None) = None ->
     let '(a, s') := discoverPackageJsonFiles root p options s in
     forall info, info ∈ read_array s' a ->
       exists j, fs.readFile root (path info) = Ok (Some j) /\ j <> JNull).
Proof.
  assert (forall e, parsePackageJson_try root (workspaceRoots s) p d = Throw e ->
            parsePackageJson root p d s = (None, s)) as Hthrow.
  { intros e He. rewrite parsePackageJson_run. by rewrite He. }
  split; [exact Hthrow|]. split; [|split; [|split; [|split]]].
  - intros Hmiss. apply (Hthrow ENOENT).
    unfold parsePackageJson_try, fs.readFile. by rewrite Hmiss.
  - intros e He. apply (Hthrow e). unfold parsePackageJson_try. by rewrite He.
  - intros t Ht (e & He). apply (Hthrow e). unfold parsePackageJson_try.
    rewrite Ht. simpl. by rewrite He.
  - intros cur results -> (e & He). unfold check_manifest.
    destruct (fileExists root (join cur package_json)); [|done].
    run_m. rewrite parsePackageJson_run. by rewrite He.
  - intros options Hmiss.
    destruct (discover_miss root p options s Hmiss) as (v & new & -> & P).
    intros info Hin. rewrite fresh_read in Hin.
    apply scored_elem in Hin as (i0 & Hi0 & ->). simpl.
    destruct P as (_ & _ & Hall). rewrite Forall_forall in Hall.
    destruct (Hall _ Hi0) as (dir & dist & _ & _ & _ & Hf).
    apply parse_try_fields in Hf as (j & Hr & Hj & Hp & _).
    exists j. by rewrite Hp.
Qed.

(** ** Invariants of discovery results *)

Lemma read_array_elem s a info :
  info ∈ read_array s a <-> exists l, l ∈ elements_of s a /\ info_at s l = Some info.
Proof. unfold read_array. apply list_elem_of_omap. Qed.

Lemma NoDup_omap {A B} (g : A -> option B) (l : list A) :
  NoDup (g <$> l) -> NoDup (omap g l).
Proof.
  induction l as [|x l IH]; simpl; [constructor|].
  intros Hnd. apply NoDup_cons in Hnd as [Hx Hnd].
  destruct (g x) as [y|] eqn:E; [|by apply IH].
  constructor; [|by apply IH].
  intros Hy. apply list_elem_of_omap in Hy as (x' & Hx' & E').
  apply Hx. rewrite <- E'. by apply list_elem_of_fmap_2.
Qed.

Lemma read_array_paths s a : path <$> read_array s a = omap (path_at s) (elements_of s a).
Proof.
  unfold read_array, path_at. induction (elements_of s a) as [|l els IH]; [done|].
  simpl. destruct (info_at s l); simpl; [f_equal|]; exact IH.
Qed.

Lemma cached_ok_NoDup s p opts a :
  cached_ok s p opts (elements_of s a) -> NoDup (path <$> read_array s a).
Proof. intros (Hnd & _). rewrite read_array_paths. by apply NoDup_omap. Qed.

(** C3. With [maxDepthUp >= 0], every entry that [discoverPackageJsonFiles]
    returns lies in the start path or in one of its ancestors, in every state
    the service can be in.  The reason is in the passes: the upward pass
    leaves the start path in the visited set, and on that set the downward
    pass returns at once, with the store as it found it. *)
Theorem discovered_entries_are_ancestors (root : node) (p : fspath)
    (options : DiscoveryOptions) (s : State) :
  reachable s -> 0 <= maxDepthUp (resolve options) ->
  let opts := resolve options in
  (let '(a, s') := discoverPackageJsonFiles root p options s in
   forall info, info ∈ read_array s' a -> ancestor_or_self (directory info) p) /\
  (forall results t,
     let '(visited, t1) := searchUpward root p (maxDepthUp opts) results ∅ opts 0 t in
     p ∈ visited /\
     searchDownward root p (maxDepthDown opts) results visited opts 0 t1 = (visited, t1)).
Proof.
  intros Hreach Hup opts. split.
  - destruct (discoverPackageJsonFiles root p options s) as [a s'] eqn:E.
    apply discover_post in E as (_ & (_ & Hall) & _); [|by apply reachable_Inv].
    intros info Hin. apply read_array_elem in Hin as (l & Hl & Hi).
    destruct (Hall l info Hl Hi) as (_ & Hanc & _). by apply Hanc.
  - intros results t. unfold searchUpward, searchDownward.
    destruct (searchUpward_fuel_spec root (S (length p)) p (maxDepthUp opts) results ∅
                opts 0 t) as (v1 & n1 & -> & _ & Hin); [lia|].
    specialize (Hin Hup). split; [done|].
    destruct (searchDownward_fuel_spec root (Z.to_nat (maxDepthDown opts - 0 + 1)) p
                (maxDepthDown opts) results v1 opts 0 (append_entries results n1 t))
      as (v2 & n2 & -> & _ & Hskip).
    destruct (Hskip Hin) as [-> ->]. by rewrite append_entries_nil.
Qed.

Lemma discovered_entries_are_ancestors_witness :
  let opts := resolve down5 in
  (let '(a, s') := discoverPackageJsonFiles repo_tree ["repo"] down5 (new_service []) in
   forall info, info ∈ read_array s' a -> ancestor_or_self (directory info) ["repo"]) /\
  (forall results t,
     let '(visited, t1) :=
       searchUpward repo_tree ["repo"] (maxDepthUp opts) results ∅ opts 0 t in
     ["repo"] ∈ visited /\
     searchDownward repo_tree ["repo"] (maxDepthDown opts) results visited opts 0 t1
     = (visited, t1)).
Proof.
  apply (discovered_entries_are_ancestors repo_tree ["repo"] down5 (new_service [])).
  - apply reach_new.
  - discriminate.
Defined.

Lemma read_array_complete s a :
  (forall l, l ∈ elements_of s a -> (l < length (infos s))%nat) ->
  length (read_array s a) = length (elements_of s a).
Proof.
  unfold read_array. induction (elements_of s a) as [|l els IH]; intros Hb; [done|].
  simpl. destruct (lookup_lt_is_Some_2 (infos s) l) as [i Hi]; [apply Hb; left|].
  unfold info_at at 1. rewrite Hi. simpl. f_equal. apply IH.
  intros l' Hl'. apply Hb. by right.
Qed.

(** C8. No two entries of a returned list share a path: for
    [discoverPackageJsonFiles] in every state the service can be in (whether
    the list is built by the two passes or handed out from the cache), and
    for the merge over all workspace roots in
    [getWorkspacePackageJsonFiles].  Every element of the returned array is
    an entry: none refers to an object that does not exist. *)
Theorem discovery_results_have_unique_paths (root : node) (s : State) :
  reachable s ->
  (forall p options,
     let '(a, s') := discoverPackageJsonFiles root p options s in
     NoDup (path <$> read_array s' a) /\
     length (read_array s' a) = length (elements_of s' a)) /\
  (let '(a, s') := getWorkspacePackageJsonFiles root s in
   NoDup (path <$> read_array s' a) /\
   length (read_array s' a) = length (elements_of s' a)).
Proof.
  intros Hreach. apply reachable_Inv in Hreach. split.
  - intros p options.
    destruct (discoverPackageJsonFiles root p options s) as [a s'] eqn:E.
    apply discover_post in E as (I' & Hok & _); [|done].
    split; [by eapply cached_ok_NoDup|].
    apply read_array_complete. intros l Hl.
    apply elements_of_bound in Hl as (els & Hel & Hl). by eapply (inv_arrays _ I').
  - destruct (getWorkspace_run root s Hreach) as (all & s1 & I1 & Hall & ->). split.
    + rewrite read_array_paths, elements_of_snoc.
      apply NoDup_omap. rewrite sort_desc_perm.
      apply (filter_first_NoDup (path_at s1)).
    + apply read_array_complete. rewrite elements_of_snoc. intros l Hl.
      rewrite sort_desc_elem in Hl. apply filter_first_elem in Hl. by apply Hall.
Qed.

Lemma discovery_results_have_unique_paths_witness :
  (forall p options,
     let '(a, s') := discoverPackageJsonFiles repo_tree p options (new_service [["repo"]]) in
     NoDup (path <$> read_array s' a) /\
     length (read_array s' a) = length (elements_of s' a)) /\
  (let '(a, s') := getWorkspacePackageJsonFiles repo_tree (new_service [["repo"]]) in
   NoDup (path <$> read_array s' a) /\
   length (read_array s' a) = length (elements_of s' a)).
Proof.
  apply (discovery_results_have_unique_paths repo_tree (new_service [["repo"]])).
  apply reach_new.
Defined.

(** ** The scoring formula *)

Lemma falsy_scripts j :
  truthy j = false -> keys_length j = 0%nat /\ forall k, prop j k = None.
Proof.
  destruct j as [|b|n|t|items|fields]; simpl; try done.
  intros Ht. apply negb_false_iff, String.eqb_eq in Ht. by subst t.
Qed.

Lemma existsb_elem {A} (f : A -> bool) (l : list A) :
  existsb f l = true <-> exists x, x ∈ l /\ f x = true.
Proof.
  rewrite existsb_exists. split; intros (x & H1 & H2); exists x; by rewrite ?list_elem_of_In in *.
Qed.

Lemma existsb_same_elems {A} (f g : A -> bool) (l1 l2 : list A) :
  (forall x, x ∈ l1 -> f x = true -> exists y, y ∈ l2 /\ g y = true) ->
  (forall y, y ∈ l2 -> g y = true -> exists x, x ∈ l1 /\ f x = true) ->
  existsb f l1 = existsb g l2.
Proof.
  intros H12 H21. apply eq_true_iff_eq. rewrite !existsb_elem. split.
  - intros (x & Hx & Hf). by apply (H12 x).
  - intros (y & Hy & Hg). by apply (H21 y).
Qed.

(** The code's score against the formula, for a fixed answer to "is there
    an entry at the start path". *)
Lemma score_of_formula has p resultSet info :
  has = existsb (fun e => bool_decide (directory e = p)) resultSet ->
  score_of has p info = score_formula runs_script resultSet p info.
Proof.
  intros ->. unfold score_of, score_formula, runs_script.
  destruct (truthy (scripts info)) eqn:Et.
  - simpl.
    repeat match goal with
           | |- context [if ?b then _ else _] => destruct b
           end; lia.
  - destruct (falsy_scripts _ Et) as [-> Hnone]. simpl. rewrite !Hnone. simpl.
    repeat match goal with
           | |- context [if ?b then _ else _] => destruct b
           end; lia.
Qed.

Lemma formula_after_rescore (entries resultSet : list PackageJsonInfo) (p : fspath) :
  (forall e, e ∈ entries -> directory e = p -> distance e = 0) ->
  resultSet ≡ₚ
    (fun i => with_score (score_of (has_at_start p entries) p i) i) <$> entries ->
  forall info, info ∈ resultSet ->
    score info = score_formula runs_script resultSet p info.
Proof.
  intros Hzero Hperm info Hin.
  assert (has_at_start p entries
          = existsb (fun e => bool_decide (directory e = p)) resultSet) as Hhas.
  { unfold has_at_start. apply existsb_same_elems.
    - intros x Hx Hf. apply andb_true_iff in Hf as [Hd _].
      exists (with_score (score_of (has_at_start p entries) p x) x). split; [|done].
      rewrite Hperm. apply list_elem_of_fmap. by exists x.
    - intros y Hy Hg. rewrite Hperm in Hy.
      apply list_elem_of_fmap in Hy as (x & -> & Hx). exists x. split; [done|].
      simpl in Hg. rewrite Hg. simpl. apply bool_decide_eq_true_1 in Hg.
      rewrite (Hzero x Hx Hg). done. }
  rewrite Hperm in Hin. apply list_elem_of_fmap in Hin as (i & -> & Hi).
  simpl. rewrite (score_of_formula _ p resultSet i Hhas). done.
Qed.

Lemma rescored_read has p s a :
  read_array (set_infos (rescore has p (elements_of s a)) s) a
  = (fun i => with_score (score_of has p i) i) <$> read_array s a.
Proof.
  unfold read_array.
  change (elements_of (set_infos (rescore has p (elements_of s a)) s) a)
    with (elements_of s a).
  assert (forall els : list loc,
    (forall l, l ∈ els -> l ∈ elements_of s a) ->
    omap (info_at (set_infos (rescore has p (elements_of s a)) s)) els
    = (fun i => with_score (score_of has p i) i) <$> omap (info_at s) els) as H.
  { induction els as [|l els IH]; intros Hsub; [done|].
    assert (info_at (set_infos (rescore has p (elements_of s a)) s) l
            = (fun i => with_score (score_of has p i) i) <$> info_at s l) as El.
    { unfold info_at. simpl. rewrite rescore_lookup.
      by rewrite bool_decide_eq_true_2 by (apply Hsub; left). }
    simpl. rewrite El. destruct (info_at s l); simpl.
    - f_equal. apply IH. intros l' Hl'. apply Hsub. by right.
    - apply IH. intros l' Hl'. apply Hsub. by right. }
  by apply H.
Qed.

Lemma sorted_read (key : loc -> Z) s a :
  read_array (set_arrays (alter (sort_desc key) a) s) a ≡ₚ read_array s a.
Proof.
  unfold read_array, elements_of. simpl. rewrite list_lookup_alter_eq.
  destruct (arrays s !! a) as [els|]; simpl; [|done].
  change (info_at (set_arrays (alter (sort_desc key) a) s)) with (info_at s).
  by rewrite sort_desc_perm.
Qed.

(** C4 (as stated, refuted).  A manifest at the start path whose only script
    is [build] with an empty command: its scripts contain [build], so the
    formula of the specification gives 100 + 20 + 15 + 25 = 160, but
    [calculateScores] tests the command for truthiness and gives 145. *)
Lemma claimed_score_counterexample :
  let '(a, s') :=
    discoverPackageJsonFiles (single_manifest_tree manifest_empty_build) ["repo"]
      no_options (new_service []) in
  exists info,
    read_array s' a = [info] /\
    existsb (declares_script (scripts info)) commonScripts = true /\
    score info = 145 /\
    claimed_score (read_array s' a) ["repo"] info = 160.
Proof. vm_compute. eexists. repeat split. Qed.

(** C4 (amended).  In every state the service can be in, a discovery run
    that is not answered from the cache gives every entry of its result the
    score

      max(0, 100 - distance * 10) + 50 if isWorkspaceRoot
        + 30 if isMonorepoRoot + 20 if scripts is non-empty
        + 15 if scripts maps one of start/dev/build/test/lint to a truthy
             value (a non-empty command)
        + 25 if directory is the start path
        + 40 if no entry of the result set lies at the start path and
             distance is 1,

    and [getBestPackageJson], when it merges the entries of its probe into
    the result, re-scores the whole merged set by the same formula.  The
    formula differs from the one with "scripts contains" only where a common
    script has a falsy command. *)
Theorem calculateScores_formula (root : node) (p : fspath) (options : DiscoveryOptions)
    (s : State) :
  reachable s ->
  ((if cacheResults (resolve options)
    then cache s !! cacheKey p (resolve options) else None) = None ->
   let '(a, s') := discoverPackageJsonFiles root p options s in
   let resultSet := read_array s' a in
   forall info, info ∈ resultSet ->
     score info = score_formula runs_script resultSet p info) /\
  (let opts := resolve options in
   let '(results, s1) := discoverPackageJsonFiles root p (as_options opts) s in
   probes p opts s1 results = true ->
   let s' := (getBestPackageJson root p options s).2 in
   let resultSet := read_array s' results in
   forall info, info ∈ resultSet ->
     score info = score_formula runs_script resultSet p info) /\
  (forall resultSet info,
     (forall k, k ∈ commonScripts ->
        declares_script (scripts info) k = runs_script (scripts info) k) ->
     claimed_score resultSet p info = score_formula runs_script resultSet p info).
Proof.
  intros Hreach. apply reachable_Inv in Hreach. split; [|split].
  - intros Hmiss.
    destruct (discover_miss root p options s Hmiss) as (v & new & -> & P).
    apply (formula_after_rescore new).
    + intros e He. by destruct (pass_entry root p (resolve options) new s v P e He)
        as (_ & _ & H & _).
    + apply fresh_read.
  - intros opts. subst opts.
    destruct (getBest_run root p options s Hreach)
      as (results & s1 & -> & I1 & [[Hno _]|(_ & s3 & I3 & B3 & C3 & ->)]).
    { intros Hyes. congruence. }
    intros _. simpl.
    apply (formula_after_rescore (read_array s3 results)).
    + intros e He. apply read_array_elem in He as (l & Hl & Hi).
      destruct C3 as (_ & Hall). by destruct (Hall l e Hl Hi) as (_ & _ & H).
    + rewrite sorted_read. by rewrite rescored_read.
  - intros resultSet info Hsame. unfold claimed_score, score_formula.
    replace (existsb (declares_script (scripts info)) commonScripts)
      with (existsb (runs_script (scripts info)) commonScripts); [done|].
    unfold commonScripts in *. simpl.
    rewrite !Hsame by (repeat constructor). done.
Qed.

Lemma calculateScores_formula_witness :
  (let '(a, s') :=
     discoverPackageJsonFiles work_tree ["work"] downward_only (new_service []) in
   forall info, info ∈ read_array s' a ->
     score info = score_formula runs_script (read_array s' a) ["work"] info) /\
  (let s' := (getBestPackageJson work_tree ["work"] downward_only (new_service [])).2 in
   ([0%nat] = elements_of s' 0%nat) /\
   forall info, info ∈ read_array s' 0%nat ->
     score info = score_formula runs_script (read_array s' 0%nat) ["work"] info).
Proof.
  destruct (calculateScores_formula work_tree ["work"] downward_only (new_service [])
              (reach_new [])) as (H1 & H2 & _).
  split; [exact (H1 eq_refl)|]. split; [reflexivity | exact (H2 eq_refl)].
Defined.

(** ** Scores and the monorepo flag *)

(** C9 (as stated, refuted).  A manifest that declares [workspaces] as
    [null] is not flagged although the field is declared, and a manifest
    that declares it as a string is flagged although the value is neither an
    array nor an object with a [packages] array: on either reading of
    "declares a workspaces field", the flag is not equivalent to it. *)
Lemma monorepo_flag_counterexample :
  (let '(a, s') :=
     discoverPackageJsonFiles (single_manifest_tree manifest_workspaces_null) ["repo"]
       no_options (new_service []) in
   exists info,
     read_array s' a = [info] /\
     fs.readFile (single_manifest_tree manifest_workspaces_null) (path info)
       = Ok (Some manifest_workspaces_null) /\
     declares_workspaces manifest_workspaces_null /\
     isMonorepoRoot info = false) /\
  (let '(a, s') :=
     discoverPackageJsonFiles (single_manifest_tree manifest_workspaces_string) ["repo"]
       no_options (new_service []) in
   exists info,
     read_array s' a = [info] /\
     fs.readFile (single_manifest_tree manifest_workspaces_string) (path info)
       = Ok (Some manifest_workspaces_string) /\
     workspaces_shape manifest_workspaces_string = false /\
     isMonorepoRoot info = true).
Proof.
  split; vm_compute; eexists; repeat split; by eexists.
Qed.

(** C9 (amended).  In every state the service can be in, every entry that
    [discoverPackageJsonFiles] returns has a score of at least 0, and its
    [isMonorepoRoot] flag is true if and only if its [workspaces] field holds
    a truthy value; in particular a flagged entry has the field.  The
    [workspaces] field of an entry is the [workspaces] value of the manifest
    content that was parsed, so the flag says that the manifest declared
    [workspaces] with a truthy value. *)
Theorem discovered_entries_score_and_flag (root : node) (p : fspath)
    (options : DiscoveryOptions) (s : State) :
  reachable s ->
  (let '(a, s') := discoverPackageJsonFiles root p options s in
   forall info, info ∈ read_array s' a ->
     0 <= score info /\
     (isMonorepoRoot info = true <->
        exists v, workspaces info = Some v /\ truthy v = true) /\
     (isMonorepoRoot info = true -> is_Some (workspaces info))) /\
  (forall roots q dist info,
     parsePackageJson_try root roots q dist = Ok info ->
     exists manifest,
       fs.readFile root q = Ok (Some manifest) /\
       workspaces info = prop manifest "workspaces" /\
       (isMonorepoRoot info = true <->
          exists v, prop manifest "workspaces" = Some v /\ truthy v = true) /\
       (isMonorepoRoot info = true -> declares_workspaces manifest)).
Proof.
  intros Hreach. apply reachable_Inv in Hreach.
  assert (forall flag (w : option json),
    flag = truthy_opt w ->
    (flag = true <-> exists v, w = Some v /\ truthy v = true) /\
    (flag = true -> is_Some w)) as Hflag.
  { intros flag [v|] ->; simpl.
    - split; [|by eauto]. split; [by eauto|]. by intros (? & [= <-] & ?).
    - split; [|done]. split; [done|]. by intros (? & ? & _). }
  split.
  - destruct (discoverPackageJsonFiles root p options s) as [a s'] eqn:E.
    apply discover_post in E as (I' & _); [|done].
    intros info Hin. apply read_array_elem in Hin as (l & _ & Hi).
    destruct (inv_infos _ I' l info Hi) as (H0 & _ & Hm).
    split; [done|]. by apply Hflag.
  - intros roots q dist info Hparse.
    apply parse_try_fields in Hparse
      as (j & Hr & _ & _ & _ & _ & _ & _ & _ & Hm & Hw & _).
    exists j. split; [done|]. split; [done|]. unfold declares_workspaces.
    by apply Hflag.
Qed.

Lemma discovered_entries_score_and_flag_witness :
  (let '(a, s') :=
     discoverPackageJsonFiles repo_tree ["repo"] down5 (new_service []) in
   forall info, info ∈ read_array s' a ->
     0 <= score info /\
     (isMonorepoRoot info = true <->
        exists v, workspaces info = Some v /\ truthy v = true) /\
     (isMonorepoRoot info = true -> is_Some (workspaces info))) /\
  (forall roots q dist info,
     parsePackageJson_try repo_tree roots q dist = Ok info ->
     exists manifest,
       fs.readFile repo_tree q = Ok (Some manifest) /\
       workspaces info = prop manifest "workspaces" /\
       (isMonorepoRoot info = true <->
          exists v, prop manifest "workspaces" = Some v /\ truthy v = true) /\
       (isMonorepoRoot info = true -> declares_workspaces manifest)).
Proof.
  apply (discovered_entries_score_and_flag repo_tree ["repo"] down5 (new_service [])).
  apply reach_new.
Defined.

(** ** Defects *)

(** C1.  On the tree of the scenario, with start path [/repo] and
    [maxDepthDown = 5], discovery returns the manifest of [/repo] alone, with
    score 160: [/repo/pkgs/a/package.json] is not in the result.  The same
    holds for [findChildPackageJsonFiles], whose purpose is to list child
    manifests.  When the upward pass is switched off ([maxDepthUp = -1]) the
    downward pass does find the nested manifest, at distance 2 with score
    80, ranked after [/repo]. *)
Theorem nested_manifest_not_discovered :
  (let '(a, s') := discoverPackageJsonFiles repo_tree ["repo"] down5 (new_service []) in
   (fun i => (path i, distance i, score i)) <$> read_array s' a
   = [(["repo"; "package.json"], 0, 160)]) /\
  (let '(a, s') := findChildPackageJsonFiles repo_tree ["repo"] 5 (new_service []) in
   (fun i => (path i, distance i, score i)) <$> read_array s' a
   = [(["repo"; "package.json"], 0, 160)]) /\
  (let '(a, s') :=
     discoverPackageJsonFiles repo_tree ["repo"] downward_only (new_service []) in
   (fun i => (path i, distance i, score i)) <$> read_array s' a
   = [(["repo"; "package.json"], 0, 160);
      (["repo"; "pkgs"; "a"; "package.json"], 2, 80)]).
Proof. repeat split. Qed.

(** C2.  With [/repo] a workspace folder, the entry that discovery returns
    for [/repo/package.json] has score 210.  A later
    [analyzeProjectContext] on the same path takes the list from the cache
    and adds 100 to that very object, and a second one adds 100 again: the
    list returned by the first call, and the context returned by the second,
    have changed after they were returned. *)
Theorem analyze_mutates_returned_entries :
  let s0 := new_service [["repo"]] in
  let '(found, s1) := discoverPackageJsonFiles repo_tree ["repo"] no_options s0 in
  let '(context1, s2) := analyzeProjectContext repo_tree ["repo"] no_detection_options s1 in
  let '(context2, s3) := analyzeProjectContext repo_tree ["repo"] no_detection_options s2 in
  score <$> read_array s1 found = [210] /\
  score <$> read_array s2 found = [310] /\
  score <$> read_array s3 found = [410] /\
  score <$> read_array s2 (relevantPackageJsons context1) = [310] /\
  score <$> read_array s3 (relevantPackageJsons context1) = [410] /\
  rootPackageJson context1 = Some 0%nat /\
  score_at s2 0%nat = 310 /\ score_at s3 0%nat = 410.
Proof. repeat split. Qed.
